(** * tracking_pid: the waypoint-tracking PID controller

    A shallow embedding of [scripts/tracking_pid_node.py] and the
    properties of its two classes, [PID] and [TrackingPIDWQueue].

    Numbers.  The program computes on IEEE doubles (Python floats and
    numpy float64).  They are idealised here as real numbers: every
    arithmetic operation is exact and there is no NaN or infinity.  All
    statements below are statements about that idealisation.

    Time.  [rospy.Time.now().to_sec()] is a read of the clock; each
    function that reads it takes the value read as an argument.

    Logging.  [rospy.loginfo] and [rospy.logerr] change neither the
    object state nor what is published; they are left out, and with them
    the [verbose] argument of [PID.update], which only guards a log line.

    Exceptions.  A callback returns the object as it was mutated up to
    that point, what it published, and the exception that left it, if
    any. *)

From Stdlib Require Import Reals Lra String List.
Import ListNotations.
Open Scope R_scope.

(** ** The numpy functions the program calls *)

Module np.

(** [np.clip(a, a_min, a_max)]: numpy documents it as
    [np.minimum(a_max, np.maximum(a, a_min))], with no check that
    [a_min <= a_max]. *)
Definition clip (a a_min a_max : R) : R := Rmin a_max (Rmax a a_min).

(** [np.hypot] *)
Definition hypot (x1 x2 : R) : R := sqrt (x1 * x1 + x2 * x2).

(** [np.arctan2(x1, x2)], the angle of the point whose ordinate is [x1]
    and whose abscissa is [x2], in (-PI, PI]. *)
Definition arctan2 (x1 x2 : R) : R :=
  if Rlt_dec 0 x2 then atan (x1 / x2)
  else if Rlt_dec x2 0 then
    if Rle_dec 0 x1 then atan (x1 / x2) + PI else atan (x1 / x2) - PI
  else
    if Rlt_dec 0 x1 then PI / 2
    else if Rlt_dec x1 0 then - (PI / 2)
    else 0.

Definition abs : R -> R := Rabs.
Definition cos : R -> R := Rtrigo_def.cos.
Definition sin : R -> R := Rtrigo_def.sin.
Definition tanh : R -> R := Rtrigo_def.tanh.

End np.

(** ** class PID *)

Record PID : Type := mkPID {
  kp : R;
  kd : R;
  ki : R;
  min_output : R;
  max_output : R;
  delta : R;
  min_integral : R;
  max_integral : R;
  name : string;
  integral : R;
  previous_output : R;
  previous_error : option R;   (* [None] is Python's None *)
  previous_time : R
}.

(** [PID.reset]; [now] is the clock value it reads. *)
Definition reset (self : PID) (now : R) : PID :=
  {| kp := kp self; kd := kd self; ki := ki self;
     min_output := min_output self; max_output := max_output self;
     delta := delta self;
     min_integral := min_integral self; max_integral := max_integral self;
     name := name self;
     integral := 0;
     previous_output := 0;
     previous_error := None;
     previous_time := now |}.

(** [PID.__init__]: stores its arguments and calls [reset]. *)
Definition PID_init (kp kd ki min_output max_output delta
                     min_integral max_integral : R) (name : string)
                    (now : R) : PID :=
  reset (mkPID kp kd ki min_output max_output delta
               min_integral max_integral name 0 0 None 0) now.

(** The derivative term of [PID.update] (lines 227-231).  When [dt > 0]
    and no error was recorded yet, the source first sets
    [previous_error] to [error]; that assignment is only read here, since
    line 250 overwrites the field. *)
Definition derivative_term (self : PID) (error dt : R) : R :=
  if Rlt_dec 0 dt then
    let previous_error :=
      match previous_error self with
      | None => error
      | Some e => e
      end in
    kd self * (error - previous_error) / dt
  else 0.

(** The integral as [PID.update] stores it (lines 232-237): both bounds
    handed to [np.clip] are [max_integral]. *)
Definition stored_integral (self : PID) (error dt : R) : R :=
  np.clip (integral self + error * dt) (max_integral self) (max_integral self).

(** [PID.update(error)], reading the clock as [current_time].  Returns
    the object after the call and the returned output. *)
Definition update (self : PID) (current_time error : R) : PID * R :=
  let dt := current_time - previous_time self in
  let proportional := kp self * error in
  let derivative := derivative_term self error dt in
  let integral_ := stored_integral self error dt in
  let integral := ki self * integral_ in
  let output :=
    np.clip (proportional + integral + derivative)
            (min_output self) (max_output self) in
  let output :=
    np.clip output
            (previous_output self - delta self)
            (previous_output self + delta self) in
  ({| kp := kp self; kd := kd self; ki := ki self;
      min_output := min_output self; max_output := max_output self;
      delta := delta self;
      min_integral := min_integral self; max_integral := max_integral self;
      name := name self;
      integral := integral_;
      previous_output := output;
      previous_error := Some error;
      previous_time := current_time |},
   output).

(** A run of [update] calls, one per (clock value, error) pair, with the
    outputs in call order. *)
Fixpoint updates (self : PID) (calls : list (R * R)) : PID * list R :=
  match calls with
  | [] => (self, [])
  | (current_time, error) :: calls =>
      let r := update self current_time error in
      let rs := updates (fst r) calls in
      (fst rs, snd r :: snd rs)
  end.

(** ** Messages *)

(** [geometry_msgs/Twist]; the program touches [linear.x] and
    [angular.z] only, the other four components keep the 0 that
    [Twist()] gives them. *)
Record Twist : Type := mkTwist {
  linear_x : R;
  angular_z : R
}.

(** One entry of [tracking_pid/states.states]. *)
Record StateMsg : Type := mkStateMsg {
  x : R;
  y : R;
  yaw : R;
  ux : R;
  utheta : R
}.

Record Quaternion : Type := mkQuaternion {
  qx : R;
  qy : R;
  qz : R;
  qw : R
}.

(** The fields of [nav_msgs/Odometry] that [odom_callback] reads. *)
Record Odometry : Type := mkOdometry {
  position_x : R;
  position_y : R;
  orientation : Quaternion;
  twist_linear_x : R;
  twist_angular_z : R
}.

(** Modelled from the spec: [tracking_pid.cfg.ParamsConfig] is generated
    from a cfg file that is not among the sources.  The record has one
    field per key that [param_callback] reads, which are the gains and
    limits of the spec's PIDConfig for both axes and the two tunable
    fields of its ControllerConfig. *)
Record ParamsConfig : Type := mkParamsConfig {
  cfg_angular_tolerance : R;
  cfg_rotate_lin_vel : R;
  angular_kp : R;
  angular_ki : R;
  angular_kd : R;
  angular_min_integral : R;
  angular_max_integral : R;
  angular_min_output : R;
  angular_max_output : R;
  linear_kp : R;
  linear_ki : R;
  linear_kd : R;
  linear_min_integral : R;
  linear_max_integral : R;
  linear_min_output : R;
  linear_max_output : R
}.

(** A numpy array of length 5, as [self.odom] and [self.waypoint] are. *)
Record Vec5 : Type := mkVec5 {
  at0 : R;
  at1 : R;
  at2 : R;
  at3 : R;
  at4 : R
}.

(** The exceptions the callbacks can raise: [deque.popleft] on an empty
    deque, and reading an attribute that was never assigned. *)
Inductive exn : Type :=
| IndexError
| AttributeError.

(** ** class TrackingPIDWQueue *)

Record Controller : Type := mkController {
  prev_linear_vel : R;
  prev_angular_vel : R;
  twist : Twist;
  need_waypoint : bool;            (* [self.need_waypoint.data] *)
  odom : Vec5;
  waypoint : Vec5;
  rotate_lin_vel : R;
  verbose : bool;
  angular_tolerance : R;
  robot_radius : R;
  pid_angular : PID;
  pid_linear : PID;
  i : option nat;                  (* unassigned until [states_callback] *)
  states : option (list StateMsg)  (* the deque; unassigned likewise *)
}.

(** What a callback leaves behind. *)
Record Outcome : Type := mkOutcome {
  self_after : Controller;
  published : list Twist;          (* on /cmd_vel, in order *)
  raised : option exn
}.

Definition set_twist (v : Twist) (c : Controller) : Controller :=
  mkController (prev_linear_vel c) (prev_angular_vel c) v (need_waypoint c)
    (odom c) (waypoint c) (rotate_lin_vel c) (verbose c)
    (angular_tolerance c) (robot_radius c) (pid_angular c) (pid_linear c)
    (i c) (states c).

Definition set_need_waypoint (v : bool) (c : Controller) : Controller :=
  mkController (prev_linear_vel c) (prev_angular_vel c) (twist c) v
    (odom c) (waypoint c) (rotate_lin_vel c) (verbose c)
    (angular_tolerance c) (robot_radius c) (pid_angular c) (pid_linear c)
    (i c) (states c).

Definition set_odom (v : Vec5) (c : Controller) : Controller :=
  mkController (prev_linear_vel c) (prev_angular_vel c) (twist c)
    (need_waypoint c) v (waypoint c) (rotate_lin_vel c) (verbose c)
    (angular_tolerance c) (robot_radius c) (pid_angular c) (pid_linear c)
    (i c) (states c).

Definition set_waypoint (v : Vec5) (c : Controller) : Controller :=
  mkController (prev_linear_vel c) (prev_angular_vel c) (twist c)
    (need_waypoint c) (odom c) v (rotate_lin_vel c) (verbose c)
    (angular_tolerance c) (robot_radius c) (pid_angular c) (pid_linear c)
    (i c) (states c).

Definition set_pid_angular (v : PID) (c : Controller) : Controller :=
  mkController (prev_linear_vel c) (prev_angular_vel c) (twist c)
    (need_waypoint c) (odom c) (waypoint c) (rotate_lin_vel c) (verbose c)
    (angular_tolerance c) (robot_radius c) v (pid_linear c)
    (i c) (states c).

Definition set_pid_linear (v : PID) (c : Controller) : Controller :=
  mkController (prev_linear_vel c) (prev_angular_vel c) (twist c)
    (need_waypoint c) (odom c) (waypoint c) (rotate_lin_vel c) (verbose c)
    (angular_tolerance c) (robot_radius c) (pid_angular c) v
    (i c) (states c).

Definition set_prev_vel (linear angular : R) (c : Controller) : Controller :=
  mkController linear angular (twist c)
    (need_waypoint c) (odom c) (waypoint c) (rotate_lin_vel c) (verbose c)
    (angular_tolerance c) (robot_radius c) (pid_angular c) (pid_linear c)
    (i c) (states c).

Definition set_i (v : option nat) (c : Controller) : Controller :=
  mkController (prev_linear_vel c) (prev_angular_vel c) (twist c)
    (need_waypoint c) (odom c) (waypoint c) (rotate_lin_vel c) (verbose c)
    (angular_tolerance c) (robot_radius c) (pid_angular c) (pid_linear c)
    v (states c).

Definition set_states (v : option (list StateMsg)) (c : Controller)
  : Controller :=
  mkController (prev_linear_vel c) (prev_angular_vel c) (twist c)
    (need_waypoint c) (odom c) (waypoint c) (rotate_lin_vel c) (verbose c)
    (angular_tolerance c) (robot_radius c) (pid_angular c) (pid_linear c)
    (i c) v.

(** The five assignments [self.waypoint[k] = state.<field>]. *)
Definition waypoint_of (state : StateMsg) : Vec5 :=
  mkVec5 (x state) (y state) (yaw state) (ux state) (utheta state).

(** [param_callback(config, _)].  Every key is stored as it comes; the
    two slew limits, [robot_radius] and [verbose] are set to constants. *)
Definition param_callback (self : Controller) (config : ParamsConfig)
  : Controller * ParamsConfig :=
  let a := pid_angular self in
  let l := pid_linear self in
  (mkController
     (prev_linear_vel self) (prev_angular_vel self) (twist self)
     (need_waypoint self) (odom self) (waypoint self)
     (cfg_rotate_lin_vel config)
     false
     (cfg_angular_tolerance config)
     (2 / 10)
     (mkPID (angular_kp config) (angular_kd config) (angular_ki config)
            (angular_min_output config) (angular_max_output config)
            (1 / 100)
            (angular_min_integral config) (angular_max_integral config)
            (name a) (integral a) (previous_output a) (previous_error a)
            (previous_time a))
     (mkPID (linear_kp config) (linear_kd config) (linear_ki config)
            (linear_min_output config) (linear_max_output config)
            (5 / 100)
            (linear_min_integral config) (linear_max_integral config)
            (name l) (integral l) (previous_output l) (previous_error l)
            (previous_time l))
     (i self) (states self),
   config).

(** [stop]: zero the command and publish it. *)
Definition stop (self : Controller) : Outcome :=
  let self := set_twist (mkTwist 0 0) self in
  mkOutcome self [twist self] None.

(** [states_callback(msg)].  [self.states] and the local [states] are
    the same deque, so the [popleft] shortens [self.states] too. *)
Definition states_callback (self : Controller) (msg : list StateMsg)
  : Outcome :=
  let self := set_i (Some 0%nat) self in
  match msg with
  | [] => mkOutcome (set_states (Some []) self) [] (Some IndexError)
  | state :: rest =>
      let self := set_states (Some rest) self in
      let self := set_waypoint (waypoint_of state) self in
      mkOutcome (set_need_waypoint false self) [] None
  end.

(** [get_new_waypoint]: the object after the call and the exception
    raised, if any. *)
Definition get_new_waypoint (self : Controller) : Controller * option exn :=
  match i self with
  | None => (self, Some AttributeError)
  | Some n =>
      let self := set_i (Some (n + 1)%nat) self in
      match states self with
      | None => (self, Some AttributeError)
      | Some [] => (self, Some IndexError)
      | Some (state :: rest) =>
          let self := set_states (Some rest) self in
          let self := set_waypoint (waypoint_of state) self in
          (set_need_waypoint false self, None)
      end
  end.

(** Lines 152-162 of [control]: the distance to the waypoint and the two
    error signals, from the stored pose and waypoint. *)
Definition x_diff (self : Controller) : R := at0 (waypoint self) - at0 (odom self).
Definition y_diff (self : Controller) : R := at1 (waypoint self) - at1 (odom self).
Definition dist (self : Controller) : R := np.hypot (y_diff self) (x_diff self).
Definition x_relative (self : Controller) : R :=
  let yaw := at2 (odom self) in
  np.cos yaw * x_diff self + np.sin yaw * y_diff self.
Definition y_relative (self : Controller) : R :=
  let yaw := at2 (odom self) in
  - np.sin yaw * x_diff self + np.cos yaw * y_diff self.
Definition angular_error (self : Controller) : R :=
  np.arctan2 (y_relative self) (x_relative self).
Definition linear_error (self : Controller) : R :=
  np.tanh (x_relative self).

(** [control].  Each of the two [update] calls reads the clock itself:
    [t_angular] and [t_linear] are the two values read. *)
Definition control (self : Controller) (t_angular t_linear : R) : Outcome :=
  let dist := dist self in
  let angular_error := angular_error self in
  let linear_error := linear_error self in
  let ra := update (pid_angular self) t_angular angular_error in
  let self := set_pid_angular (fst ra) self in
  let self := set_twist (mkTwist (linear_x (twist self)) (snd ra)) self in
  let rl := update (pid_linear self) t_linear linear_error in
  let self := set_pid_linear (fst rl) self in
  let self := set_twist (mkTwist (snd rl) (angular_z (twist self))) self in
  let self :=
    set_prev_vel (linear_x (twist self)) (angular_z (twist self)) self in
  let self :=
    if Rlt_dec (angular_tolerance self) (np.abs angular_error)
    then set_twist (mkTwist (rotate_lin_vel self) (angular_z (twist self))) self
    else self in
  if Rlt_dec dist (robot_radius self) then
    let self := set_need_waypoint true self in
    match get_new_waypoint self with
    | (self, Some e) => mkOutcome self [] (Some e)
    | (self, None) => mkOutcome self [twist self] None
    end
  else mkOutcome self [twist self] None.

Section Node.

(** [tf.transformations.euler_from_quaternion], from outside the
    repository: any function from a quaternion to three angles. *)
Variable euler_from_quaternion : Quaternion -> R * R * R.

(** [odom_callback(msg)]; the two clock values are those [control]
    reads, when it runs. *)
Definition odom_callback (self : Controller) (msg : Odometry)
                         (t_angular t_linear : R) : Outcome :=
  let quaternion := orientation msg in
  let self :=
    set_odom (mkVec5 (position_x msg) (position_y msg)
                     (snd (euler_from_quaternion quaternion))
                     (twist_linear_x msg) (twist_angular_z msg)) self in
  if need_waypoint self then mkOutcome self [] None
  else control self t_angular t_linear.

(** [__init__].  [mem] is what [np.empty(5)] happens to hold,
    [t_angular] and [t_linear] the clock values the two [PID]
    constructors read, and [config] the configuration with which the
    dynamic_reconfigure [Server] calls [param_callback] when it is
    constructed. *)
Definition init (mem : Vec5) (t_angular t_linear : R)
                (config : ParamsConfig) : Controller :=
  let self :=
    mkController 0 0 (mkTwist 0 0) true mem mem (2 / 10) true (2 / 10)
      (2 / 10)
      (PID_init 1 0 0 (-1) 1 (1 / 100) 0 0 "Angular" t_angular)
      (PID_init 1 0 0 (-5 / 10) (5 / 10) (5 / 100) 0 0 "Linear" t_linear)
      None None in
  fst (param_callback self config).

(** What reaches the node once it spins. *)
Inductive event : Type :=
| OdomMsg (msg : Odometry) (t_angular t_linear : R)
| StatesMsg (msg : list StateMsg)
| Reconfigure (config : ParamsConfig)
| Shutdown.

Definition dispatch (self : Controller) (e : event) : Outcome :=
  match e with
  | OdomMsg msg t_angular t_linear => odom_callback self msg t_angular t_linear
  | StatesMsg msg => states_callback self msg
  | Reconfigure config => mkOutcome (fst (param_callback self config)) [] None
  | Shutdown => stop self
  end.

(** Events handled one after the other, up to the first exception that
    leaves a callback; everything published on the way is collected. *)
Fixpoint run (self : Controller) (events : list event) : Outcome :=
  match events with
  | [] => mkOutcome self [] None
  | e :: events =>
      let o := dispatch self e in
      match raised o with
      | Some _ => o
      | None =>
          let o' := run (self_after o) events in
          mkOutcome (self_after o') (published o ++ published o') (raised o')
      end
  end.

End Node.

(** ** Definitions used in the statements *)

(** [update] calls at the given clock values, all with error 0. *)
Definition zero_calls (times : list R) : list (R * R) :=
  map (fun t => (t, 0)) times.

(** A regulator with no integral and no derivative gain whose output
    range contains 0 and whose slew limit is [d]. *)
Definition proportional_only (d : R) (self : PID) : Prop :=
  ki self = 0 /\ kd self = 0 /\
  min_output self <= 0 <= max_output self /\
  delta self = d.

(** The object as [control] has it when it reaches the arrival check
    (line 185). *)
Definition commanded (self : Controller) (t_angular t_linear : R)
  : Controller :=
  let ra := update (pid_angular self) t_angular (angular_error self) in
  let rl := update (pid_linear self) t_linear (linear_error self) in
  mkController (snd rl) (snd ra)
    (mkTwist
       (if Rlt_dec (angular_tolerance self) (np.abs (angular_error self))
        then rotate_lin_vel self else snd rl)
       (snd ra))
    (need_waypoint self) (odom self) (waypoint self) (rotate_lin_vel self)
    (verbose self) (angular_tolerance self) (robot_radius self)
    (fst ra) (fst rl) (i self) (states self).

(** The gains, limits and tolerances that [__init__] itself assigns. *)
Definition constructor_config : ParamsConfig :=
  mkParamsConfig (2 / 10) (2 / 10)
                 1 0 0 0 0 (-1) 1
                 1 0 0 0 0 (-5 / 10) (5 / 10).

(** A node started at time 0 that has received the one-waypoint list
    [(wx, wy)] and holds the pose (0, 0) with yaw 0. *)
Definition tracking_from_origin (wx wy : R) : Controller :=
  let origin := mkVec5 0 0 0 0 0 in
  let self := init origin 0 0 constructor_config in
  let self := self_after (states_callback self [mkStateMsg wx wy 0 0 0]) in
  set_odom origin self.

(** Pose updates and reconfigurations: the events other than a waypoint
    list and the shutdown hook. *)
Definition pose_or_config (e : event) : bool :=
  match e with
  | OdomMsg _ _ _ | Reconfigure _ => true
  | StatesMsg _ | Shutdown => false
  end.

(** [constructor_config] with the angular output limits swapped. *)
Definition inverted_config : ParamsConfig :=
  mkParamsConfig (2 / 10) (2 / 10)
                 1 0 0 0 0 1 (-1)
                 1 0 0 0 0 (-5 / 10) (5 / 10).

(** The regulator with another value in [self.integral]. *)
Definition set_integral (v : R) (self : PID) : PID :=
  mkPID (kp self) (kd self) (ki self) (min_output self) (max_output self)
        (delta self) (min_integral self) (max_integral self) (name self)
        v (previous_output self) (previous_error self) (previous_time self).

(** [k] calls of [get_new_waypoint] in a row, up to the first one that
    raises. *)
Fixpoint advance (k : nat) (self : Controller) : Controller * option exn :=
  match k with
  | O => (self, None)
  | S k =>
      match get_new_waypoint self with
      | (self, None) => advance k self
      | (self, Some e) => (self, Some e)
      end
  end.


(** The events other than a waypoint list, and the shutdown hook among
    them. *)
Definition no_waypoint_list (e : event) : bool :=
  match e with
  | StatesMsg _ => false
  | OdomMsg _ _ _ | Reconfigure _ | Shutdown => true
  end.

Definition is_shutdown (e : event) : bool :=
  match e with
  | Shutdown => true
  | OdomMsg _ _ _ | StatesMsg _ | Reconfigure _ => false
  end.

(** What [update] writes and [reset] clears: the fields of a regulator
    other than its gains and limits. *)
Definition pid_memory (self : PID) : R * R * option R * R :=
  (integral self, previous_output self, previous_error self,
   previous_time self).

(** * Properties *)

(** ** Clipping *)

Lemma Rmax_cases (a b : R) :
  a <= b /\ Rmax a b = b \/ b < a /\ Rmax a b = a.
Proof. unfold Rmax; destruct (Rle_dec a b); lra. Qed.

Lemma Rmin_cases (a b : R) :
  a <= b /\ Rmin a b = a \/ b < a /\ Rmin a b = b.
Proof. unfold Rmin; destruct (Rle_dec a b); lra. Qed.

(** Case analysis on every [Rmax] and [Rmin] in sight. *)
Ltac split_max a b :=
  let H := fresh in
  destruct (Rmax_cases a b) as [[? H] | [? H]]; rewrite H in *; clear H.

Ltac split_min a b :=
  let H := fresh in
  destruct (Rmin_cases a b) as [[? H] | [? H]]; rewrite H in *; clear H.

Ltac split_clip :=
  unfold np.clip in *;
  repeat match goal with
         | |- context [Rmax ?a ?b] => split_max a b
         | |- context [Rmin ?a ?b] => split_min a b
         | _ : context [Rmax ?a ?b] |- _ => split_max a b
         | _ : context [Rmin ?a ?b] |- _ => split_min a b
         end.

Lemma clip_between (a a_min a_max : R) :
  a_min <= a_max -> a_min <= np.clip a a_min a_max <= a_max.
Proof. intros; split_clip; lra. Qed.

Lemma clip_inverted (a a_min a_max : R) :
  a_max <= a_min -> np.clip a a_min a_max = a_max.
Proof. intros; split_clip; lra. Qed.

Lemma clip_inside (a a_min a_max : R) :
  a_min <= a <= a_max -> np.clip a a_min a_max = a.
Proof. intros; split_clip; lra. Qed.

Lemma clip_around (a c d : R) :
  0 <= d -> Rabs (np.clip a (c - d) (c + d) - c) <= d.
Proof.
  intros Hd.
  assert (H : c - d <= np.clip a (c - d) (c + d) <= c + d)
    by (apply clip_between; lra).
  apply Rabs_le; lra.
Qed.

(** ** What [update] leaves untouched and what it records *)

Lemma update_config (self : PID) (t e : R) :
  let self' := fst (update self t e) in
  kp self' = kp self /\ kd self' = kd self /\ ki self' = ki self /\
  min_output self' = min_output self /\ max_output self' = max_output self /\
  delta self' = delta self /\
  min_integral self' = min_integral self /\
  max_integral self' = max_integral self.
Proof. cbn. repeat split. Qed.

Lemma update_previous_output (self : PID) (t e : R) :
  previous_output (fst (update self t e)) = snd (update self t e).
Proof. reflexivity. Qed.

Lemma update_step_bound (self : PID) (t e : R) :
  0 <= delta self ->
  Rabs (snd (update self t e) - previous_output self) <= delta self.
Proof. intros Hd. cbn. apply clip_around, Hd. Qed.

Lemma update_integral (self : PID) (t e : R) :
  integral (fst (update self t e)) = max_integral self.
Proof. cbn. unfold stored_integral. apply clip_inverted. lra. Qed.

Lemma update_inverted_slew (self : PID) (t e : R) :
  delta self <= 0 ->
  snd (update self t e) = previous_output self + delta self.
Proof. intros Hd. cbn. apply clip_inverted. lra. Qed.

(** ** Claims about [PID.update] *)

(** C2: the claim is that the stored integral is the accumulated value
    clamped to [min_integral, max_integral].  [update] does not do that:
    it passes [max_integral] as both bounds.  With limits -1 and 1, a zero
    integral, error -1/2 and one second elapsed, the accumulated value
    -1/2 lies inside the limits and would be kept by the clamp, while
    [update] stores 1. *)
Theorem update_integral_ignores_min_integral :
  let self := mkPID 1 0 1 (-1) 1 (5 / 100) (-1) 1 "Linear" 0 0 None 0 in
  let error := - (1 / 2) in
  let dt := 1 - previous_time self in
  np.clip (integral self + error * dt) (min_integral self) (max_integral self)
    = - (1 / 2)
  /\ integral (fst (update self 1 error)) = 1.
Proof.
  cbn zeta. split.
  - cbn [integral previous_time min_integral max_integral].
    replace (0 + - (1 / 2) * (1 - 0)) with (- (1 / 2)) by lra.
    apply clip_inside. lra.
  - apply update_integral.
Qed.

(** C3 (as amended): when [delta] is not negative, the outputs of two
    consecutive [update] calls differ by at most [delta], and so do the
    first output and the [previous_output] the object held before. *)
Theorem update_slew_limited (self : PID) (t1 e1 t2 e2 : R) :
  0 <= delta self ->
  let r1 := update self t1 e1 in
  let r2 := update (fst r1) t2 e2 in
  Rabs (snd r1 - previous_output self) <= delta self /\
  Rabs (snd r2 - snd r1) <= delta self.
Proof.
  intros Hd r1 r2. split.
  - apply update_step_bound, Hd.
  - change (snd r1) with (previous_output (fst r1)).
    apply (update_step_bound (fst r1) t2 e2). exact Hd.
Qed.

Lemma update_slew_limited_witness :
  let self := PID_init 1 0 0 (-1) 1 (1 / 100) 0 0 "Angular" 0 in
  0 <= delta self /\
  Rabs (snd (update (fst (update self 1 3)) 2 3) - snd (update self 1 3))
    <= delta self.
Proof.
  split.
  - cbn. lra.
  - apply (update_slew_limited
             (PID_init 1 0 0 (-1) 1 (1 / 100) 0 0 "Angular" 0) 1 3 2 3).
    cbn. lra.
Defined.

(** C3 (as stated) fails: with [delta = -1] the slew range is inverted,
    [np.clip] returns its upper bound [previous_output + delta], and two
    consecutive outputs are 1 apart, which is more than -1. *)
Lemma update_slew_not_for_negative_delta :
  ~ (forall (self : PID) (t1 e1 t2 e2 : R),
        Rabs (snd (update (fst (update self t1 e1)) t2 e2)
              - snd (update self t1 e1)) <= delta self).
Proof.
  intros H.
  specialize (H (PID_init 1 0 0 (-1) 1 (-1) 0 0 "Angular" 0) 1 0 2 0).
  rewrite (update_inverted_slew (fst (update _ 1 0)) 2 0) in H by (cbn; lra).
  rewrite update_previous_output in H.
  replace (delta (fst (update (PID_init 1 0 0 (-1) 1 (-1) 0 0 "Angular" 0) 1 0)))
    with (-1) in H by reflexivity.
  replace (delta (PID_init 1 0 0 (-1) 1 (-1) 0 0 "Angular" 0))
    with (-1) in H by reflexivity.
  replace (snd (update (PID_init 1 0 0 (-1) 1 (-1) 0 0 "Angular" 0) 1 0)
           + -1 - snd (update (PID_init 1 0 0 (-1) 1 (-1) 0 0 "Angular" 0) 1 0))
    with (-1) in H by lra.
  rewrite Rabs_left in H; lra.
Qed.

(** C6: the claim is that with a non-positive elapsed time only the
    derivative is skipped and the integral is still accumulated.  For
    every such call the derivative term is indeed 0, the output is still
    the proportional and integral terms clamped to the output range and
    then to the slew range, the time, error and output are still
    recorded, and the next call, if time has advanced, takes its
    derivative against this call's error.  The accumulation is lost,
    though: [update] clips the accumulated integral between
    [max_integral] and [max_integral].  With integral limits -1 and 1, a
    zero integral, error 1/2 and the clock one second behind the
    recorded time, the accumulated value -1/2 lies within the limits and
    would give output 0, while [update] stores 1 and returns 5/100. *)
Theorem update_nonpositive_dt :
  (forall (self : PID) (t e : R),
      t - previous_time self <= 0 ->
      let dt := t - previous_time self in
      let self' := fst (update self t e) in
      derivative_term self e dt = 0 /\
      snd (update self t e) =
        np.clip (np.clip (kp self * e + ki self * integral self' + 0)
                         (min_output self) (max_output self))
                (previous_output self - delta self)
                (previous_output self + delta self) /\
      previous_time self' = t /\
      previous_error self' = Some e /\
      previous_output self' = snd (update self t e) /\
      forall t' e', t < t' ->
        derivative_term self' e' (t' - previous_time self')
          = kd self * (e' - e) / (t' - t)) /\
  (let self := mkPID 1 0 1 (-1) 1 (5 / 100) (-1) 1 "Linear" 0 0 None 1 in
   let error := 1 / 2 in
   let dt := 0 - previous_time self in
   let accumulated :=
     np.clip (integral self + error * dt)
             (min_integral self) (max_integral self) in
   dt <= 0 /\
   accumulated = - (1 / 2) /\
   integral (fst (update self 0 error)) = 1 /\
   np.clip (np.clip (kp self * error + ki self * accumulated + 0)
                    (min_output self) (max_output self))
           (previous_output self - delta self)
           (previous_output self + delta self) = 0 /\
   snd (update self 0 error) = 5 / 100).
Proof.
  split.
  - intros self t e Hdt dt self'.
    assert (Hder : derivative_term self e dt = 0).
    { unfold derivative_term.
      destruct (Rlt_dec 0 dt); [subst dt; lra | reflexivity]. }
    split; [exact Hder|].
    split.
    { cbn. fold dt. rewrite Hder. reflexivity. }
    split; [reflexivity|].
    split; [reflexivity|].
    split; [reflexivity|].
    intros t' e' Ht. subst self'. cbn.
    unfold derivative_term. cbn.
    destruct (Rlt_dec 0 (t' - t)); [reflexivity | lra].
  - cbn zeta.
    cbn [integral previous_time min_integral max_integral kp ki
         min_output max_output previous_output delta].
    assert (Hacc : np.clip (0 + 1 / 2 * (0 - 1)) (-1) 1 = - (1 / 2)).
    { replace (0 + 1 / 2 * (0 - 1)) with (- (1 / 2)) by lra.
      apply clip_inside. lra. }
    split; [lra|].
    split; [exact Hacc|].
    split; [apply update_integral|].
    split.
    + rewrite Hacc. split_clip; lra.
    + cbn. unfold derivative_term, stored_integral. cbn.
      destruct (Rlt_dec 0 (0 - 1)); [lra|].
      split_clip; lra.
Qed.

Lemma update_nonpositive_dt_witness :
  let self := mkPID 2 1 0 (-1) 1 (1 / 100) 0 0 "Angular" 0 0 (Some 1) 5 in
  5 - previous_time self <= 0 /\
  derivative_term self 3 (5 - previous_time self) = 0.
Proof.
  split.
  - cbn. lra.
  - destruct update_nonpositive_dt as [H _].
    apply (H (mkPID 2 1 0 (-1) 1 (1 / 100) 0 0 "Angular" 0 0 (Some 1) 5) 5 3).
    cbn. lra.
Defined.

(** ** Sustained zero error *)

Lemma proportional_only_update (d : R) (self : PID) (t e : R) :
  proportional_only d self -> proportional_only d (fst (update self t e)).
Proof. intros H. exact H. Qed.

Lemma derivative_term_no_gain (self : PID) (e dt : R) :
  kd self = 0 -> derivative_term self e dt = 0.
Proof.
  intros Hkd. unfold derivative_term.
  destruct (Rlt_dec 0 dt); [|reflexivity].
  rewrite Hkd. unfold Rdiv. rewrite !Rmult_0_l. reflexivity.
Qed.

Lemma update_zero_error (d : R) (self : PID) (t : R) :
  proportional_only d self ->
  snd (update self t 0)
    = np.clip 0 (previous_output self - d) (previous_output self + d).
Proof.
  intros (Hki & Hkd & Hrange & Hd). cbn.
  rewrite derivative_term_no_gain by exact Hkd.
  rewrite Hki, Hd.
  replace (kp self * 0 + 0 * stored_integral self 0 (t - previous_time self) + 0)
    with 0 by ring.
  rewrite (clip_inside 0) by exact Hrange.
  reflexivity.
Qed.

Lemma settle_towards_zero (d p : R) :
  0 <= d ->
  let o := np.clip 0 (p - d) (p + d) in
  Rabs o <= Rabs p /\ Rabs (o - p) <= d /\ Rabs o <= Rmax 0 (Rabs p - d).
Proof.
  intros Hd o. subst o.
  unfold Rabs; repeat destruct Rcase_abs; split_clip; lra.
Qed.

Lemma updates_zero_next (d : R) (times : list R) :
  forall (self : PID) (n : nat),
    proportional_only d self ->
    (S n < length times)%nat ->
    let outputs := snd (updates self (zero_calls times)) in
    nth (S n) outputs 1
      = np.clip 0 (nth n outputs 1 - d) (nth n outputs 1 + d).
Proof.
  induction times as [|t times IH]; intros self n Hp Hn; [inversion Hn|].
  destruct n as [|n].
  - destruct times as [|t' times]; [cbn in Hn; inversion Hn; inversion H0|].
    change (zero_calls (t :: t' :: times))
      with ((t, 0) :: (t', 0) :: zero_calls times).
    cbn [updates snd fst nth].
    rewrite (update_zero_error d (fst (update self t 0)) t')
      by (apply proportional_only_update, Hp).
    rewrite update_previous_output. reflexivity.
  - change (zero_calls (t :: times)) with ((t, 0) :: zero_calls times).
    cbn [updates snd fst nth].
    apply (IH (fst (update self t 0)) n).
    + apply proportional_only_update, Hp.
    + cbn in Hn. apply PeanoNat.lt_S_n, Hn.
Qed.

Lemma updates_zero_bound (d : R) (times : list R) :
  0 < d ->
  forall (self : PID) (n : nat),
    proportional_only d self ->
    (n < length times)%nat ->
    Rabs (nth n (snd (updates self (zero_calls times))) 1)
      <= Rmax 0 (Rabs (previous_output self) - INR (S n) * d).
Proof.
  intros Hd.
  induction times as [|t times IH]; intros self n Hp Hn; [inversion Hn|].
  destruct n as [|n].
  - change (zero_calls (t :: times)) with ((t, 0) :: zero_calls times).
    cbn [updates snd fst nth].
    rewrite (update_zero_error d self t Hp).
    replace (INR 1 * d) with d by (cbn; ring).
    apply settle_towards_zero. lra.
  - change (zero_calls (t :: times)) with ((t, 0) :: zero_calls times).
    cbn [updates snd fst nth].
    assert (Hn' : (n < length times)%nat) by (cbn in Hn; apply PeanoNat.lt_S_n, Hn).
    pose proof (IH (fst (update self t 0)) n
                   (proportional_only_update d self t 0 Hp) Hn') as Hb.
    rewrite update_previous_output, (update_zero_error d self t Hp) in Hb.
    destruct (settle_towards_zero d (previous_output self) (Rlt_le _ _ Hd))
      as (_ & _ & Hs).
    cbn zeta in Hs.
    rewrite (S_INR (S n)).
    pose proof (pos_INR (S n)) as Hk.
    revert Hk Hb Hs.
    generalize (Rabs (nth n (snd (updates (fst (update self t 0)) (zero_calls times))) 1)).
    generalize (Rabs (np.clip 0 (previous_output self - d) (previous_output self + d))).
    generalize (Rabs (previous_output self)).
    generalize (INR (S n)).
    intros k a b c Hk Hb Hs.
    assert (Hkd : 0 <= k * d) by (apply Rmult_le_pos; lra).
    replace ((k + 1) * d) with (k * d + d) by ring.
    revert Hkd Hb Hs. generalize (k * d). intros kd_ Hkd Hb Hs.
    destruct (Rmax_cases 0 (b - kd_)) as [[? E1] | [? E1]];
      destruct (Rmax_cases 0 (a - d)) as [[? E2] | [? E2]];
      destruct (Rmax_cases 0 (a - (kd_ + d))) as [[? E3] | [? E3]];
      rewrite E1 in Hb; rewrite E2 in Hs; rewrite E3; lra.
Qed.

(** C10 (as amended): for a regulator with [ki = 0] and [kd = 0] whose
    output range contains 0 and whose [delta] is positive, under sustained
    zero error every output is no further from 0 than the output before it
    (for the first call, than the stored [previous_output]) and differs
    from it by at most [delta]; and there is a number of calls after which
    every output is 0. *)
Theorem zero_error_output_settles (self : PID) :
  ki self = 0 -> kd self = 0 ->
  min_output self <= 0 <= max_output self ->
  0 < delta self ->
  (forall (times : list R) (n : nat),
      (n < length times)%nat ->
      let outputs := snd (updates self (zero_calls times)) in
      let before :=
        match n with
        | O => previous_output self
        | S m => nth m outputs 1
        end in
      Rabs (nth n outputs 1) <= Rabs before /\
      Rabs (nth n outputs 1 - before) <= delta self) /\
  exists N : nat,
    forall (times : list R) (n : nat),
      (N <= n)%nat -> (n < length times)%nat ->
      nth n (snd (updates self (zero_calls times))) 1 = 0.
Proof.
  intros Hki Hkd Hrange Hd.
  assert (Hp : proportional_only (delta self) self) by (repeat split; tauto).
  split.
  - intros times n Hn outputs before.
    assert (Hstep : nth n outputs 1
                    = np.clip 0 (before - delta self) (before + delta self)).
    { subst outputs before. destruct n as [|m].
      - destruct times as [|t times]; [inversion Hn|].
        change (zero_calls (t :: times)) with ((t, 0) :: zero_calls times).
        cbn [updates snd fst nth].
        apply update_zero_error, Hp.
      - apply updates_zero_next; assumption. }
    rewrite Hstep.
    destruct (settle_towards_zero (delta self) before (Rlt_le _ _ Hd))
      as (H1 & H2 & _).
    split; assumption.
  - destruct (INR_archimed (delta self) (Rabs (previous_output self)) Hd)
      as [N HN].
    exists N. intros times n HNn Hn.
    pose proof (updates_zero_bound (delta self) times Hd self n Hp Hn) as Hb.
    assert (Hle : INR N <= INR (S n)) by (apply le_INR; auto with arith).
    assert (Hneg : Rabs (previous_output self) - INR (S n) * delta self <= 0) by nra.
    destruct (Rmax_cases 0 (Rabs (previous_output self) - INR (S n) * delta self))
      as [[? E] | [? E]]; rewrite E in Hb.
    + pose proof (Rabs_pos (nth n (snd (updates self (zero_calls times))) 1)).
      assert (Hz : Rabs (nth n (snd (updates self (zero_calls times))) 1) = 0) by lra.
      revert Hz. unfold Rabs. destruct Rcase_abs; lra.
    + pose proof (Rabs_pos (nth n (snd (updates self (zero_calls times))) 1)).
      assert (Hz : Rabs (nth n (snd (updates self (zero_calls times))) 1) = 0) by lra.
      revert Hz. unfold Rabs. destruct Rcase_abs; lra.
Qed.

Lemma zero_error_output_settles_witness :
  let self := mkPID 1 0 0 (-5 / 10) (5 / 10) (5 / 100) 0 0 "Linear" 0 3 None 0 in
  (ki self = 0 /\ kd self = 0 /\ min_output self <= 0 <= max_output self /\
   0 < delta self) /\
  exists N : nat,
    forall (times : list R) (n : nat),
      (N <= n)%nat -> (n < length times)%nat ->
      nth n (snd (updates self (zero_calls times))) 1 = 0.
Proof.
  split.
  - cbn. repeat split; lra.
  - apply (zero_error_output_settles
             (mkPID 1 0 0 (-5 / 10) (5 / 10) (5 / 100) 0 0 "Linear" 0 3 None 0));
      cbn; lra.
Defined.

Lemma update_zero_error_excluded (self : PID) (t : R) :
  ki self = 0 -> kd self = 0 ->
  min_output self = 1 -> max_output self = 2 -> delta self = 1 / 100 ->
  0 <= previous_output self ->
  0 < snd (update self t 0).
Proof.
  intros Hki Hkd Hmin Hmax Hd Hprev. cbn.
  rewrite derivative_term_no_gain by exact Hkd.
  rewrite Hki, Hmin, Hmax, Hd.
  replace (kp self * 0 + 0 * stored_integral self 0 (t - previous_time self) + 0)
    with 0 by ring.
  split_clip; lra.
Qed.

Lemma update_zero_error_frozen (self : PID) (t : R) :
  delta self = 0 -> snd (update self t 0) = previous_output self.
Proof.
  intros Hd. rewrite update_inverted_slew by lra. rewrite Hd. ring.
Qed.

(** C10 (as stated) fails: [ki = 0] and [kd = 0] do not make the output
    go to 0 whatever the rest of the configuration.  When the output range
    excludes 0, here [1, 2], the zero sum is clamped up to 1, and from a
    freshly constructed regulator every output under sustained zero error
    is positive.  When [delta] is 0 the output cannot move, and a
    regulator whose previous output is 1 returns 1 for ever. *)
Lemma zero_error_output_may_stay_nonzero :
  (let self := PID_init 1 0 0 1 2 (1 / 100) 0 0 "Linear" 0 in
   ki self = 0 /\ kd self = 0 /\
   forall (times : list R) (n : nat),
     (n < length times)%nat ->
     0 < nth n (snd (updates self (zero_calls times))) 1) /\
  (let self := mkPID 1 0 0 (-1) 1 0 0 0 "Linear" 0 1 None 0 in
   ki self = 0 /\ kd self = 0 /\
   forall (times : list R) (n : nat),
     (n < length times)%nat ->
     nth n (snd (updates self (zero_calls times))) 0 = 1).
Proof.
  split; cbn zeta; (split; [reflexivity|]); (split; [reflexivity|]).
  - assert (H : forall (times : list R) (self : PID) (n : nat),
               ki self = 0 -> kd self = 0 ->
               min_output self = 1 -> max_output self = 2 ->
               delta self = 1 / 100 -> 0 <= previous_output self ->
               (n < length times)%nat ->
               0 < nth n (snd (updates self (zero_calls times))) 1).
    { induction times as [|t times IH];
        intros self n Hki Hkd Hmin Hmax Hd Hprev Hn; [inversion Hn|].
      change (zero_calls (t :: times)) with ((t, 0) :: zero_calls times).
      cbn [updates snd fst nth].
      pose proof (update_zero_error_excluded self t Hki Hkd Hmin Hmax Hd Hprev)
        as Ho.
      destruct n as [|n]; [exact Ho|].
      apply IH; try assumption.
      - rewrite update_previous_output. lra.
      - cbn in Hn. apply PeanoNat.lt_S_n, Hn. }
    intros times n Hn. apply H; try reflexivity. exact Hn.
  - assert (H : forall (times : list R) (self : PID) (n : nat),
               delta self = 0 -> previous_output self = 1 ->
               (n < length times)%nat ->
               nth n (snd (updates self (zero_calls times))) 0 = 1).
    { induction times as [|t times IH]; intros self n Hd Hprev Hn;
        [inversion Hn|].
      change (zero_calls (t :: times)) with ((t, 0) :: zero_calls times).
      cbn [updates snd fst nth].
      pose proof (update_zero_error_frozen self t Hd) as Ho.
      destruct n as [|n]; [rewrite Ho; exact Hprev|].
      apply IH.
      - exact Hd.
      - rewrite update_previous_output, Ho. exact Hprev.
      - cbn in Hn. apply PeanoNat.lt_S_n, Hn. }
    intros times n Hn. apply H; try reflexivity. exact Hn.
Qed.

(** ** The control cycle *)

Lemma control_unfold (self : Controller) (ta tl : R) :
  control self ta tl =
  let self' := commanded self ta tl in
  if Rlt_dec (dist self) (robot_radius self) then
    match get_new_waypoint (set_need_waypoint true self') with
    | (self'', Some e) => mkOutcome self'' [] (Some e)
    | (self'', None) => mkOutcome self'' [twist self''] None
    end
  else mkOutcome self' [twist self'] None.
Proof.
  unfold control, commanded. cbn.
  destruct (Rlt_dec (angular_tolerance self) (np.abs (angular_error self)));
    reflexivity.
Qed.

(** [get_new_waypoint] touches the counter, the queue, the waypoint and
    the flag, and nothing else. *)
Lemma get_new_waypoint_keeps (self : Controller) :
  let self' := fst (get_new_waypoint self) in
  twist self' = twist self /\
  pid_angular self' = pid_angular self /\
  pid_linear self' = pid_linear self /\
  prev_linear_vel self' = prev_linear_vel self /\
  prev_angular_vel self' = prev_angular_vel self.
Proof.
  unfold get_new_waypoint.
  destruct (i self) as [n|]; cbn; [|tauto].
  destruct (states self) as [[|state rest]|]; cbn; tauto.
Qed.

Lemma control_keeps (self : Controller) (ta tl : R) :
  let o := control self ta tl in
  let self' := commanded self ta tl in
  twist (self_after o) = twist self' /\
  pid_angular (self_after o) = pid_angular self' /\
  pid_linear (self_after o) = pid_linear self' /\
  prev_linear_vel (self_after o) = prev_linear_vel self' /\
  prev_angular_vel (self_after o) = prev_angular_vel self'.
Proof.
  cbn zeta. rewrite control_unfold. cbn zeta.
  destruct (Rlt_dec (dist self) (robot_radius self)); [|cbn; tauto].
  pose proof (get_new_waypoint_keeps
                (set_need_waypoint true (commanded self ta tl))) as H.
  destruct (get_new_waypoint (set_need_waypoint true (commanded self ta tl)))
    as [self'' [e|]]; exact H.
Qed.

Lemma control_outcome (self : Controller) (ta tl : R) :
  let o := control self ta tl in
  (raised o = None -> published o = [twist (self_after o)]) /\
  (raised o <> None -> published o = []) /\
  (~ dist self < robot_radius self -> raised o = None).
Proof.
  cbn zeta. rewrite control_unfold. cbn zeta.
  destruct (Rlt_dec (dist self) (robot_radius self)).
  - destruct (get_new_waypoint (set_need_waypoint true (commanded self ta tl)))
      as [self'' [e|]]; cbn; repeat split; try tauto; try discriminate.
  - cbn. repeat split; tauto.
Qed.

(** C4: on a control cycle whose angular error exceeds
    [angular_tolerance], the command left in [self.twist] has
    [rotate_lin_vel] as its linear component and the angular regulator's
    output as its angular component, while the linear regulator's output
    is kept in [prev_linear_vel] only.  That command is what the cycle
    publishes: it is the one published command unless an exception leaves
    the cycle, which cannot happen while the waypoint is not reached. *)
Theorem heading_override (self : Controller) (ta tl : R) :
  angular_tolerance self < np.abs (angular_error self) ->
  let o := control self ta tl in
  linear_x (twist (self_after o)) = rotate_lin_vel self /\
  angular_z (twist (self_after o))
    = snd (update (pid_angular self) ta (angular_error self)) /\
  prev_linear_vel (self_after o)
    = snd (update (pid_linear self) tl (linear_error self)) /\
  (raised o = None -> published o = [twist (self_after o)]) /\
  (raised o <> None -> published o = []) /\
  (~ dist self < robot_radius self -> raised o = None).
Proof.
  intros Hover o.
  destruct (control_keeps self ta tl) as (Ht & _ & _ & Hl & _).
  destruct (control_outcome self ta tl) as (Hok & Hexn & Hfar).
  fold o in Ht, Hl, Hok, Hexn, Hfar.
  assert (Htw : twist (commanded self ta tl)
                = mkTwist (rotate_lin_vel self)
                    (snd (update (pid_angular self) ta (angular_error self)))).
  { unfold commanded. cbn [twist].
    destruct (Rlt_dec (angular_tolerance self) (np.abs (angular_error self)));
      [reflexivity | contradiction]. }
  split; [rewrite Ht, Htw; reflexivity|].
  split; [rewrite Ht, Htw; reflexivity|].
  split; [rewrite Hl; reflexivity|].
  repeat split; assumption.
Qed.

(** ** The frame transform *)

Lemma arctan2_ahead (d : R) : 0 < d -> np.arctan2 0 d = 0.
Proof.
  intros Hd. unfold np.arctan2.
  destruct (Rlt_dec 0 d); [|contradiction].
  unfold Rdiv. rewrite Rmult_0_l. apply atan_0.
Qed.

Lemma arctan2_behind (d : R) : d < 0 -> np.arctan2 0 d = PI.
Proof.
  intros Hd. unfold np.arctan2.
  destruct (Rlt_dec 0 d); [lra|].
  destruct (Rlt_dec d 0); [|contradiction].
  destruct (Rle_dec 0 0); [|lra].
  unfold Rdiv. rewrite Rmult_0_l, atan_0. ring.
Qed.

Lemma PI_gt_2 : 2 < PI.
Proof. pose proof PI2_1. lra. Qed.

(** A waypoint on the line through the robot along its heading, at signed
    distance [d] in front of it. *)
Lemma frame_on_heading (self : Controller) (d : R) :
  at0 (waypoint self) - at0 (odom self) = d * cos (at2 (odom self)) ->
  at1 (waypoint self) - at1 (odom self) = d * sin (at2 (odom self)) ->
  x_relative self = d /\ y_relative self = 0 /\ dist self = Rabs d.
Proof.
  intros Hx Hy.
  pose proof (sin2_cos2 (at2 (odom self))) as Hsc. unfold Rsqr in Hsc.
  unfold x_relative, y_relative, dist, x_diff, y_diff, np.hypot, np.cos, np.sin.
  cbn zeta. rewrite Hx, Hy.
  set (c := cos (at2 (odom self))) in *.
  set (s := sin (at2 (odom self))) in *.
  repeat split.
  - replace (c * (d * c) + s * (d * s)) with (d * (s * s + c * c)) by ring.
    rewrite Hsc. ring.
  - ring.
  - replace (d * s * (d * s) + d * c * (d * c))
      with (Rsqr d * (s * s + c * c)) by (unfold Rsqr; ring).
    rewrite Hsc, Rmult_1_r. apply sqrt_Rsqr_abs.
Qed.

Lemma angular_error_ahead (self : Controller) (d : R) :
  at0 (waypoint self) - at0 (odom self) = d * cos (at2 (odom self)) ->
  at1 (waypoint self) - at1 (odom self) = d * sin (at2 (odom self)) ->
  0 < d -> angular_error self = 0.
Proof.
  intros Hx Hy Hd.
  destruct (frame_on_heading self d Hx Hy) as (Hf & Hl & _).
  unfold angular_error. rewrite Hf, Hl. apply arctan2_ahead, Hd.
Qed.

Lemma angular_error_behind (self : Controller) (d : R) :
  at0 (waypoint self) - at0 (odom self) = d * cos (at2 (odom self)) ->
  at1 (waypoint self) - at1 (odom self) = d * sin (at2 (odom self)) ->
  d < 0 -> angular_error self = PI.
Proof.
  intros Hx Hy Hd.
  destruct (frame_on_heading self d Hx Hy) as (Hf & Hl & _).
  unfold angular_error. rewrite Hf, Hl. apply arctan2_behind, Hd.
Qed.

(** C5: [control] takes the world-frame offsets of the waypoint, rotates
    them by the yaw into [forward] and [lateral], and hands
    [arctan2 lateral forward] to the angular regulator and [tanh forward]
    to the linear one.  With yaw 0, a waypoint straight ahead gives
    angular error 0 and one straight behind gives an angular error of
    magnitude PI. *)
Theorem frame_transform (self : Controller) (ta tl : R) :
  let dx := at0 (waypoint self) - at0 (odom self) in
  let dy := at1 (waypoint self) - at1 (odom self) in
  let yaw := at2 (odom self) in
  let forward := cos yaw * dx + sin yaw * dy in
  let lateral := - sin yaw * dx + cos yaw * dy in
  angular_error self = np.arctan2 lateral forward /\
  linear_error self = tanh forward /\
  pid_angular (self_after (control self ta tl))
    = fst (update (pid_angular self) ta (np.arctan2 lateral forward)) /\
  pid_linear (self_after (control self ta tl))
    = fst (update (pid_linear self) tl (tanh forward)) /\
  (yaw = 0 -> dy = 0 -> 0 < dx -> angular_error self = 0) /\
  (yaw = 0 -> dy = 0 -> dx < 0 -> Rabs (angular_error self) = PI).
Proof.
  intros dx dy yaw forward lateral.
  destruct (control_keeps self ta tl) as (_ & Ha & Hl & _).
  split; [reflexivity|].
  split; [reflexivity|].
  split; [rewrite Ha; reflexivity|].
  split; [rewrite Hl; reflexivity|].
  split.
  - intros Hyaw Hdy Hdx.
    apply (angular_error_ahead self dx); fold yaw; try rewrite Hyaw.
    + rewrite cos_0. fold dx. ring.
    + rewrite sin_0. fold dy. lra.
    + exact Hdx.
  - intros Hyaw Hdy Hdx.
    rewrite (angular_error_behind self dx); fold yaw; try rewrite Hyaw.
    + apply Rabs_pos_eq. pose proof PI_gt_2. lra.
    + rewrite cos_0. fold dx. ring.
    + rewrite sin_0. fold dy. lra.
    + exact Hdx.
Qed.

Lemma heading_override_witness :
  let self := tracking_from_origin (-1) 0 in
  angular_tolerance self < np.abs (angular_error self) /\
  linear_x (twist (self_after (control self 1 1))) = rotate_lin_vel self.
Proof.
  assert (H : angular_tolerance (tracking_from_origin (-1) 0)
              < np.abs (angular_error (tracking_from_origin (-1) 0))).
  { rewrite (angular_error_behind (tracking_from_origin (-1) 0) (-1)).
    - unfold np.abs. rewrite Rabs_pos_eq by (pose proof PI_gt_2; lra).
      cbn. pose proof PI_gt_2. lra.
    - cbn. rewrite cos_0. ring.
    - cbn. rewrite sin_0. ring.
    - lra. }
  split.
  - exact H.
  - apply (heading_override (tracking_from_origin (-1) 0) 1 1 H).
Defined.

Lemma frame_transform_witness :
  let self := tracking_from_origin 1 0 in
  (at2 (odom self) = 0 /\
   at1 (waypoint self) - at1 (odom self) = 0 /\
   0 < at0 (waypoint self) - at0 (odom self)) /\
  angular_error self = 0.
Proof.
  assert (H : at2 (odom (tracking_from_origin 1 0)) = 0 /\
              at1 (waypoint (tracking_from_origin 1 0))
                - at1 (odom (tracking_from_origin 1 0)) = 0 /\
              0 < at0 (waypoint (tracking_from_origin 1 0))
                  - at0 (odom (tracking_from_origin 1 0))).
  { cbn. repeat split; lra. }
  split.
  - exact H.
  - destruct H as (H1 & H2 & H3).
    destruct (frame_transform (tracking_from_origin 1 0) 1 1)
      as (_ & _ & _ & _ & Hahead & _).
    exact (Hahead H1 H2 H3).
Defined.

(** ** Queue exhaustion *)

(** C1: the claim is that arriving with an empty queue is recovered
    inside the cycle, which then emits the stop command.  [control] does
    not recover: when a pose update finds the robot within
    [robot_radius] of the waypoint and the queue is empty,
    [get_new_waypoint] raises IndexError out of [control] and out of
    [odom_callback], and the cycle publishes nothing.  The flag has been
    set before the call, so the object is left awaiting a waypoint. *)
Theorem queue_exhaustion_raises
    (euler_from_quaternion : Quaternion -> R * R * R)
    (self : Controller) (msg : Odometry) (ta tl : R) (n : nat) :
  need_waypoint self = false ->
  i self = Some n ->
  states self = Some [] ->
  np.hypot (at1 (waypoint self) - position_y msg)
           (at0 (waypoint self) - position_x msg) < robot_radius self ->
  let o := odom_callback euler_from_quaternion self msg ta tl in
  raised o = Some IndexError /\
  published o = [] /\
  need_waypoint (self_after o) = true.
Proof.
  intros Hneed Hi Hstates Hdist o. subst o.
  unfold odom_callback. cbn [need_waypoint set_odom].
  rewrite Hneed, control_unfold. cbn zeta.
  match goal with
  | |- context [Rlt_dec ?a ?b] => destruct (Rlt_dec a b) as [_|Hfar]
  end.
  - unfold get_new_waypoint. cbn. rewrite Hi. cbn. rewrite Hstates.
    cbn. repeat split.
  - exfalso. apply Hfar. exact Hdist.
Qed.

Lemma queue_exhaustion_raises_witness :
  let self :=
    self_after (states_callback (init (mkVec5 0 0 0 0 0) 0 0 constructor_config)
                                [mkStateMsg (1 / 10) 0 0 0 0]) in
  let msg := mkOdometry 0 0 (mkQuaternion 0 0 0 1) 0 0 in
  let o := odom_callback (fun _ => (0, 0, 0)) self msg 1 1 in
  (need_waypoint self = false /\ i self = Some 0%nat /\ states self = Some [] /\
   np.hypot (at1 (waypoint self) - position_y msg)
            (at0 (waypoint self) - position_x msg) < robot_radius self) /\
  raised o = Some IndexError /\ published o = [].
Proof.
  cbn zeta.
  assert (Hd : np.hypot (0 - 0) (1 / 10 - 0) < 2 / 10).
  { unfold np.hypot.
    replace ((0 - 0) * (0 - 0) + (1 / 10 - 0) * (1 / 10 - 0))
      with ((1 / 10) * (1 / 10)) by lra.
    rewrite sqrt_square; lra. }
  split.
  - repeat split. exact Hd.
  - destruct (queue_exhaustion_raises (fun _ => (0, 0, 0))
                (self_after
                   (states_callback
                      (init (mkVec5 0 0 0 0 0) 0 0 constructor_config)
                      [mkStateMsg (1 / 10) 0 0 0 0]))
                (mkOdometry 0 0 (mkQuaternion 0 0 0 1) 0 0) 1 1 0%nat
                eq_refl eq_refl eq_refl Hd) as (H1 & H2 & _).
    split; assumption.
Defined.

(** ** Before the first waypoint list *)

Lemma run_awaiting (euler_from_quaternion : Quaternion -> R * R * R)
    (events : list event) :
  forall self : Controller,
    need_waypoint self = true ->
    forallb pose_or_config events = true ->
    let o := run euler_from_quaternion self events in
    published o = [] /\ raised o = None /\ need_waypoint (self_after o) = true.
Proof.
  induction events as [|e events IH]; intros self Hneed Hall.
  - cbn. auto.
  - cbn [forallb] in Hall. apply andb_prop in Hall. destruct Hall as [He Hrest].
    destruct e as [msg ta tl | msg | config | ]; try discriminate He.
    + cbn [run dispatch]. unfold odom_callback.
      cbn [need_waypoint set_odom]. rewrite Hneed.
      cbn [raised self_after published].
      apply (IH (set_odom _ self)); assumption.
    + cbn [run dispatch raised self_after published].
      apply (IH (fst (param_callback self config))); assumption.
Qed.

Lemma odom_callback_awaiting
    (euler_from_quaternion : Quaternion -> R * R * R)
    (self : Controller) (msg : Odometry) (ta tl : R) :
  need_waypoint self = true ->
  odom_callback euler_from_quaternion self msg ta tl
    = mkOutcome
        (set_odom (mkVec5 (position_x msg) (position_y msg)
                          (snd (euler_from_quaternion (orientation msg)))
                          (twist_linear_x msg) (twist_angular_z msg)) self)
        [] None.
Proof.
  intros Hneed. unfold odom_callback. cbn [need_waypoint set_odom].
  rewrite Hneed. reflexivity.
Qed.

Lemma run_without_waypoint_list
    (euler_from_quaternion : Quaternion -> R * R * R)
    (events : list event) :
  forall self : Controller,
    need_waypoint self = true ->
    forallb no_waypoint_list events = true ->
    let o := run euler_from_quaternion self events in
    raised o = None /\
    need_waypoint (self_after o) = true /\
    pid_memory (pid_angular (self_after o)) = pid_memory (pid_angular self) /\
    pid_memory (pid_linear (self_after o)) = pid_memory (pid_linear self) /\
    published o = map (fun _ => mkTwist 0 0) (filter is_shutdown events).
Proof.
  induction events as [|e events IH]; intros self Hneed Hall.
  - cbn. auto.
  - cbn [forallb] in Hall. apply andb_prop in Hall. destruct Hall as [He Hrest].
    destruct e as [msg ta tl | msg | config | ]; try discriminate He.
    + cbn [run dispatch].
      rewrite (odom_callback_awaiting _ _ _ _ _ Hneed).
      cbn [raised self_after published filter is_shutdown app].
      apply (IH (set_odom _ self) Hneed Hrest).
    + cbn [run dispatch raised self_after published filter is_shutdown app].
      apply (IH (fst (param_callback self config)) Hneed Hrest).
    + cbn [run dispatch stop raised self_after published filter is_shutdown
           map app].
      destruct (IH (set_twist (mkTwist 0 0) self) Hneed Hrest)
        as (H1 & H2 & H3 & H4 & H5).
      repeat split; try assumption.
      cbn. rewrite H5. reflexivity.
Qed.

(** C7 (as stated) fails: the shutdown hook publishes the zero command
    whether or not a waypoint list has ever been received.  A freshly
    constructed node that is shut down has published one command while
    still awaiting its first waypoint. *)
Lemma shutdown_publishes_before_waypoints :
  let self := init (mkVec5 0 0 0 0 0) 0 0 constructor_config in
  let o := run (fun _ => (0, 0, 0)) self [Shutdown] in
  need_waypoint self = true /\
  raised o = None /\
  published o = [mkTwist 0 0] /\
  need_waypoint (self_after o) = true.
Proof. cbn. repeat split. Qed.

(** C7 (as amended): the constructor leaves the controller awaiting a
    waypoint.  A pose update received while it is awaiting one only
    stores the pose: nothing is published and nothing else in the object
    changes, so no command is computed.  And as long as no waypoint list
    has been received, whatever pose updates, reconfigurations and
    shutdown hooks are handled, nothing is raised, the controller stays
    awaiting, neither regulator has run, and the only commands published
    are the zero commands of the shutdown hook, one for each time it
    runs. *)
Theorem no_command_before_waypoints
    (euler_from_quaternion : Quaternion -> R * R * R) :
  (forall (mem : Vec5) (ta tl : R) (config : ParamsConfig),
      need_waypoint (init mem ta tl config) = true) /\
  (forall (self : Controller) (msg : Odometry) (ta tl : R),
      need_waypoint self = true ->
      odom_callback euler_from_quaternion self msg ta tl
        = mkOutcome
            (set_odom (mkVec5 (position_x msg) (position_y msg)
                              (snd (euler_from_quaternion (orientation msg)))
                              (twist_linear_x msg) (twist_angular_z msg)) self)
            [] None) /\
  (forall (self : Controller) (events : list event),
      need_waypoint self = true ->
      forallb no_waypoint_list events = true ->
      let o := run euler_from_quaternion self events in
      raised o = None /\
      need_waypoint (self_after o) = true /\
      pid_memory (pid_angular (self_after o)) = pid_memory (pid_angular self) /\
      pid_memory (pid_linear (self_after o)) = pid_memory (pid_linear self) /\
      published o = map (fun _ => mkTwist 0 0) (filter is_shutdown events)).
Proof.
  split; [reflexivity|].
  split; [apply odom_callback_awaiting|].
  intros self events. apply run_without_waypoint_list.
Qed.

Lemma no_command_before_waypoints_witness :
  let euler := fun _ : Quaternion => (0, 0, 0) in
  let self := init (mkVec5 0 0 0 0 0) 0 0 constructor_config in
  let events :=
    [OdomMsg (mkOdometry 1 2 (mkQuaternion 0 0 0 1) 0 0) 1 1;
     Reconfigure constructor_config;
     Shutdown;
     OdomMsg (mkOdometry 3 4 (mkQuaternion 0 0 0 1) 0 0) 2 2] in
  (need_waypoint self = true /\ forallb no_waypoint_list events = true) /\
  published (run euler self events) = [mkTwist 0 0] /\
  published (odom_callback euler self
               (mkOdometry 1 2 (mkQuaternion 0 0 0 1) 0 0) 1 1) = [].
Proof.
  cbn zeta.
  destruct (no_command_before_waypoints (fun _ : Quaternion => (0, 0, 0)))
    as (_ & Hodom & Hrun).
  split; [split; reflexivity|].
  split.
  - destruct (Hrun (init (mkVec5 0 0 0 0 0) 0 0 constructor_config)
                [OdomMsg (mkOdometry 1 2 (mkQuaternion 0 0 0 1) 0 0) 1 1;
                 Reconfigure constructor_config;
                 Shutdown;
                 OdomMsg (mkOdometry 3 4 (mkQuaternion 0 0 0 1) 0 0) 2 2]
                eq_refl eq_refl) as (_ & _ & _ & _ & Hp).
    exact Hp.
  - rewrite (Hodom (init (mkVec5 0 0 0 0 0) 0 0 constructor_config)
               (mkOdometry 1 2 (mkQuaternion 0 0 0 1) 0 0) 1 1 eq_refl).
    reflexivity.
Defined.

(** ** Reconfiguration *)

(** C8 (as stated) fails: a configuration whose angular output limits
    are inverted is stored like any other, and the limits the angular
    regulator held are gone. *)
Lemma param_callback_accepts_inverted_limits :
  let self := init (mkVec5 0 0 0 0 0) 0 0 constructor_config in
  let self' := fst (param_callback self inverted_config) in
  angular_max_output inverted_config < angular_min_output inverted_config /\
  min_output (pid_angular self) = -1 /\
  max_output (pid_angular self) = 1 /\
  min_output (pid_angular self') = 1 /\
  max_output (pid_angular self') = -1 /\
  self' <> self.
Proof.
  cbn zeta.
  split; [cbn; lra|].
  split; [reflexivity|]. split; [reflexivity|].
  split; [reflexivity|]. split; [reflexivity|].
  intros H.
  apply (f_equal (fun c => min_output (pid_angular c))) in H.
  cbn in H. lra.
Qed.

(** C8 (as amended): [param_callback] checks nothing.  Whatever the
    configuration, each regulator's gains and limits and the controller's
    tolerance and rotate-in-place speed become the values supplied, the
    slew limits and the arrival radius become their constants, and the
    configuration is returned as it came. *)
Theorem param_callback_stores_config (self : Controller) (config : ParamsConfig) :
  let self' := fst (param_callback self config) in
  snd (param_callback self config) = config /\
  angular_tolerance self' = cfg_angular_tolerance config /\
  rotate_lin_vel self' = cfg_rotate_lin_vel config /\
  robot_radius self' = 2 / 10 /\
  (kp (pid_angular self') = angular_kp config /\
   ki (pid_angular self') = angular_ki config /\
   kd (pid_angular self') = angular_kd config /\
   min_integral (pid_angular self') = angular_min_integral config /\
   max_integral (pid_angular self') = angular_max_integral config /\
   min_output (pid_angular self') = angular_min_output config /\
   max_output (pid_angular self') = angular_max_output config /\
   delta (pid_angular self') = 1 / 100) /\
  (kp (pid_linear self') = linear_kp config /\
   ki (pid_linear self') = linear_ki config /\
   kd (pid_linear self') = linear_kd config /\
   min_integral (pid_linear self') = linear_min_integral config /\
   max_integral (pid_linear self') = linear_max_integral config /\
   min_output (pid_linear self') = linear_min_output config /\
   max_output (pid_linear self') = linear_max_output config /\
   delta (pid_linear self') = 5 / 100).
Proof. cbn. repeat split. Qed.

(** ** The published linear command *)

Lemma odom_callback_tracking_far
    (euler_from_quaternion : Quaternion -> R * R * R)
    (self : Controller) (msg : Odometry) (ta tl : R) :
  need_waypoint self = false ->
  let self' :=
    set_odom (mkVec5 (position_x msg) (position_y msg)
                     (snd (euler_from_quaternion (orientation msg)))
                     (twist_linear_x msg) (twist_angular_z msg)) self in
  ~ dist self' < robot_radius self' ->
  odom_callback euler_from_quaternion self msg ta tl
    = mkOutcome (commanded self' ta tl) [twist (commanded self' ta tl)] None.
Proof.
  intros Hneed self' Hfar.
  unfold odom_callback. cbn [need_waypoint set_odom]. rewrite Hneed.
  fold self'. rewrite control_unfold. cbn zeta.
  destruct (Rlt_dec (dist self') (robot_radius self')); [contradiction|].
  reflexivity.
Qed.

Lemma run_step (euler_from_quaternion : Quaternion -> R * R * R)
    (self : Controller) (e : event) (events : list event) (o : Outcome) :
  dispatch euler_from_quaternion self e = o ->
  raised o = None ->
  run euler_from_quaternion self (e :: events) =
  mkOutcome (self_after (run euler_from_quaternion (self_after o) events))
            (published o
             ++ published (run euler_from_quaternion (self_after o) events))
            (raised (run euler_from_quaternion (self_after o) events)).
Proof. intros Ho Hr. cbn [run]. rewrite Ho, Hr. reflexivity. Qed.

(** C9: whether or not the override engages, [control] leaves in the
    linear regulator exactly what its own [update] produced, so the slew
    limit of the next cycle is taken against the regulator's output and
    not against what was published.  And the published linear command is
    not slew-limited: with the constructor's settings there are a waypoint
    and two pose updates, the first facing the waypoint and the second
    with it behind, whose two published linear commands differ by more
    than the linear regulator's [delta]. *)
Theorem published_linear_not_slew_limited
    (euler_from_quaternion : Quaternion -> R * R * R) :
  (forall (self : Controller) (ta tl : R),
      let r := update (pid_linear self) tl (linear_error self) in
      let self' := self_after (control self ta tl) in
      pid_linear self' = fst r /\
      previous_output (pid_linear self') = snd r) /\
  exists (target : StateMsg) (m1 m2 : Odometry) (c1 c2 : Twist),
    let self := init (mkVec5 0 0 0 0 0) 0 0 constructor_config in
    let o := run euler_from_quaternion self
                 [StatesMsg [target]; OdomMsg m1 1 1; OdomMsg m2 2 2] in
    raised o = None /\
    published o = [c1; c2] /\
    delta (pid_linear (self_after o)) < Rabs (linear_x c2 - linear_x c1).
Proof.
  split.
  { intros self ta tl r self'.
    destruct (control_keeps self ta tl) as (_ & _ & Hl & _).
    subst self'. rewrite Hl. split; reflexivity. }
  set (q := mkQuaternion 0 0 0 1).
  set (th := snd (euler_from_quaternion q)).
  set (target := mkStateMsg (cos th) (sin th) 0 0 0).
  set (m1 := mkOdometry 0 0 q 0 0).
  set (m2 := mkOdometry (2 * cos th) (2 * sin th) q 0 0).
  set (s0 := init (mkVec5 0 0 0 0 0) 0 0 constructor_config).
  set (s1 := self_after (states_callback s0 [target])).
  set (s1' := set_odom (mkVec5 0 0 th 0 0) s1).
  set (s2 := commanded s1' 1 1).
  set (s2' := set_odom (mkVec5 (2 * cos th) (2 * sin th) th 0 0) s2).
  set (s3 := commanded s2' 2 2).
  (* first cycle: the waypoint is one unit ahead *)
  destruct (frame_on_heading s1' 1) as (Hf1 & Hl1 & Hd1);
    [cbn; ring | cbn; ring |].
  assert (Hfar1 : ~ dist s1' < robot_radius s1').
  { rewrite Hd1, Rabs_pos_eq by lra. cbn. lra. }
  assert (Hae1 : angular_error s1' = 0).
  { unfold angular_error. rewrite Hf1, Hl1. apply arctan2_ahead. lra. }
  (* second cycle: the waypoint is one unit behind *)
  destruct (frame_on_heading s2' (-1)) as (Hf2 & Hl2 & Hd2);
    [cbn; ring | cbn; ring |].
  assert (Hfar2 : ~ dist s2' < robot_radius s2').
  { rewrite Hd2, Rabs_left by lra. cbn. lra. }
  assert (Hae2 : angular_error s2' = PI).
  { unfold angular_error. rewrite Hf2, Hl2. apply arctan2_behind. lra. }
  exists target, m1, m2, (twist s2), (twist s3).
  cbn zeta. fold s0.
  assert (Hrun : run euler_from_quaternion s0
                     [StatesMsg [target]; OdomMsg m1 1 1; OdomMsg m2 2 2]
                 = mkOutcome s3 [twist s2; twist s3] None).
  { rewrite (run_step euler_from_quaternion s0 (StatesMsg [target]) _
               (states_callback s0 [target]) eq_refl eq_refl).
    fold s1.
    rewrite (run_step euler_from_quaternion s1 (OdomMsg m1 1 1) _
               (mkOutcome s2 [twist s2] None)
               (odom_callback_tracking_far euler_from_quaternion s1 m1 1 1
                  eq_refl Hfar1)
               eq_refl).
    cbn [self_after].
    rewrite (run_step euler_from_quaternion s2 (OdomMsg m2 2 2) _
               (mkOutcome s3 [twist s3] None)
               (odom_callback_tracking_far euler_from_quaternion s2 m2 2 2
                  eq_refl Hfar2)
               eq_refl).
    reflexivity. }
  rewrite Hrun. cbn [raised published self_after].
  split; [reflexivity|]. split; [reflexivity|].
  assert (Hc2 : linear_x (twist s3) = 2 / 10).
  { unfold s3, commanded. cbn [twist linear_x]. rewrite Hae2.
    destruct (Rlt_dec (angular_tolerance s2') (np.abs PI)) as [_|Hno].
    - reflexivity.
    - exfalso. apply Hno. unfold np.abs.
      rewrite Rabs_pos_eq by (pose proof PI_gt_2; lra).
      cbn. pose proof PI_gt_2. lra. }
  assert (Hc1 : Rabs (linear_x (twist s2) - 0) <= 5 / 100).
  { unfold s2, commanded. cbn [twist linear_x]. rewrite Hae1.
    destruct (Rlt_dec (angular_tolerance s1') (np.abs 0)) as [Hyes|_].
    - exfalso. revert Hyes. unfold np.abs. rewrite Rabs_R0. cbn. lra.
    - apply (update_step_bound (pid_linear s1') 1 (linear_error s1')).
      cbn. lra. }
  rewrite Hc2.
  replace (delta (pid_linear s3)) with (5 / 100) by reflexivity.
  revert Hc1. generalize (linear_x (twist s2)). intros v Hv.
  unfold Rabs in *. repeat destruct Rcase_abs; lra.
Qed.

(** * Further properties of the regulator *)

Lemma update_output_between (self : PID) (t e : R) :
  min_output self <= previous_output self <= max_output self ->
  0 <= delta self ->
  min_output self <= snd (update self t e) <= max_output self.
Proof.
  intros Hprev Hd. cbn.
  generalize (kp self * e
              + ki self * stored_integral self e (t - previous_time self)
              + derivative_term self e (t - previous_time self)).
  intros raw. split_clip; lra.
Qed.

(** X1: a regulator whose [previous_output] lies within its output range
    and whose [delta] is not negative returns, over any run of [update]
    calls, only outputs within [min_output, max_output]: the slew clamp,
    applied last, never takes the output out of the range. *)
Theorem updates_outputs_in_range (calls : list (R * R)) :
  forall self : PID,
    min_output self <= previous_output self <= max_output self ->
    0 <= delta self ->
    Forall (fun o => min_output self <= o <= max_output self)
           (snd (updates self calls)).
Proof.
  induction calls as [|[t e] calls IH]; intros self Hprev Hd.
  - constructor.
  - cbn [updates snd fst].
    pose proof (update_output_between self t e Hprev Hd) as Ho.
    constructor; [exact Ho|].
    apply (IH (fst (update self t e))).
    + rewrite update_previous_output. exact Ho.
    + exact Hd.
Qed.

Lemma updates_outputs_in_range_witness :
  let self := PID_init 1 0 0 (-5 / 10) (5 / 10) (5 / 100) 0 0 "Linear" 0 in
  (min_output self <= previous_output self <= max_output self /\
   0 <= delta self) /\
  Forall (fun o => min_output self <= o <= max_output self)
         (snd (updates self [(1, 3); (2, -7)])).
Proof.
  assert (H : - 5 / 10 <= 0 <= 5 / 10 /\ 0 <= 5 / 100) by lra.
  split.
  - exact H.
  - destruct H as [H1 H2].
    exact (updates_outputs_in_range [(1, 3); (2, -7)]
             (PID_init 1 0 0 (-5 / 10) (5 / 10) (5 / 100) 0 0 "Linear" 0)
             H1 H2).
Defined.

(** X2: the value held in [self.integral] before an [update] call has no
    effect on the call: the output and the object afterwards are the same
    whatever it was, and the integral stored afterwards is
    [max_integral]. *)
Theorem update_ignores_accumulated_integral (self : PID) (v t e : R) :
  update (set_integral v self) t e = update self t e /\
  integral (fst (update self t e)) = max_integral self.
Proof.
  assert (H : forall a, stored_integral (set_integral a self) e
                          (t - previous_time self) = max_integral self).
  { intros a. unfold stored_integral. cbn. apply clip_inverted. lra. }
  split; [|apply update_integral].
  unfold update. cbn [set_integral kp kd ki min_output max_output delta
                      min_integral max_integral name previous_output
                      previous_error previous_time].
  change (derivative_term (set_integral v self) e (t - previous_time self))
    with (derivative_term self e (t - previous_time self)).
  rewrite (H v).
  replace (stored_integral self e (t - previous_time self))
    with (max_integral self).
  - reflexivity.
  - symmetry. unfold stored_integral. apply clip_inverted. lra.
Qed.

(** X3: on the first [update] after a [reset] the derivative term is 0
    whatever the elapsed time, and when [delta] is not negative the
    returned output is at most [delta] away from 0. *)
Theorem first_update_after_reset (self : PID) (now t e : R) :
  0 <= delta self ->
  let fresh := reset self now in
  derivative_term fresh e (t - previous_time fresh) = 0 /\
  Rabs (snd (update fresh t e)) <= delta self.
Proof.
  intros Hd fresh. split.
  - unfold derivative_term. cbn.
    destruct (Rlt_dec 0 (t - now)); [|reflexivity].
    unfold Rdiv. replace (e - e) with 0 by ring.
    rewrite Rmult_0_r, Rmult_0_l. reflexivity.
  - pose proof (update_step_bound fresh t e Hd) as H.
    cbn [fresh reset previous_output delta] in H.
    rewrite Rminus_0_r in H. exact H.
Qed.

Lemma first_update_after_reset_witness :
  let self := mkPID 2 3 0 (-1) 1 (1 / 100) 0 0 "Angular" 0 (7 / 10) (Some 1) 5 in
  0 <= delta self /\
  Rabs (snd (update (reset self 6) 8 4)) <= delta self.
Proof.
  assert (H : 0 <= 1 / 100) by lra.
  split.
  - exact H.
  - apply (first_update_after_reset
             (mkPID 2 3 0 (-1) 1 (1 / 100) 0 0 "Angular" 0 (7 / 10) (Some 1) 5)
             6 8 4 H).
Defined.

(** * Further properties of the frame transform *)

Lemma tanh_bounds (u : R) :
  -1 < tanh u < 1 /\ (0 < u -> 0 < tanh u) /\ (u < 0 -> tanh u < 0).
Proof.
  pose proof (exp_pos u) as Ha. pose proof (exp_pos (- u)) as Hb.
  set (q := (exp u - exp (- u)) / (exp u + exp (- u))).
  assert (Hq : tanh u = q).
  { unfold tanh, sinh, cosh, q. field. lra. }
  assert (Hmul : q * (exp u + exp (- u)) = exp u - exp (- u)).
  { unfold q. field. lra. }
  rewrite Hq. clear Hq.
  revert Hmul Ha Hb. generalize q. clear q. intros q Hmul Ha Hb.
  split; [split; nra|].
  split; intros Hu.
  - assert (exp (- u) < exp u) by (apply exp_increasing; lra). nra.
  - assert (exp u < exp (- u)) by (apply exp_increasing; lra). nra.
Qed.

(** X4: whatever the pose and the waypoint, the linear error handed to
    the linear regulator lies strictly between -1 and 1, and it has the
    sign of the forward offset: positive when the waypoint is ahead of
    the robot, negative when it is behind. *)
Theorem linear_error_bounded (self : Controller) :
  -1 < linear_error self < 1 /\
  (0 < x_relative self -> 0 < linear_error self) /\
  (x_relative self < 0 -> linear_error self < 0).
Proof. unfold linear_error, np.tanh. apply tanh_bounds. Qed.

Lemma linear_error_bounded_witness :
  let self := tracking_from_origin 1 0 in
  0 < x_relative self /\ 0 < linear_error self.
Proof.
  assert (H : 0 < x_relative (tracking_from_origin 1 0)).
  { destruct (frame_on_heading (tracking_from_origin 1 0) 1) as (Hf & _).
    - cbn. rewrite cos_0. ring.
    - cbn. rewrite sin_0. ring.
    - rewrite Hf. lra. }
  split.
  - exact H.
  - destruct (linear_error_bounded (tracking_from_origin 1 0))
      as (_ & Hpos & _).
    exact (Hpos H).
Defined.

Lemma arctan2_range (x1 x2 : R) : - PI < np.arctan2 x1 x2 <= PI.
Proof.
  pose proof PI_gt_2 as Hpi.
  pose proof (atan_bound (x1 / x2)) as Hb.
  unfold np.arctan2.
  destruct (Rlt_dec 0 x2) as [Hpos|Hnpos]; [lra|].
  destruct (Rlt_dec x2 0) as [Hneg|Hnneg].
  - assert (Hinv : / x2 < 0) by (apply Rinv_neg; exact Hneg).
    destruct (Rle_dec 0 x1) as [Hx1|Hx1].
    + assert (Hq : x1 / x2 <= 0) by (unfold Rdiv; nra).
      assert (Ha : atan (x1 / x2) <= 0).
      { destruct Hq as [Hq|Hq].
        - left. rewrite <- atan_0. apply atan_increasing, Hq.
        - rewrite Hq, atan_0. lra. }
      lra.
    + assert (Hq : 0 < x1 / x2) by (unfold Rdiv; nra).
      assert (Ha : 0 < atan (x1 / x2)).
      { rewrite <- atan_0. apply atan_increasing, Hq. }
      lra.
  - destruct (Rlt_dec 0 x1); [lra|].
    destruct (Rlt_dec x1 0); lra.
Qed.

(** X5: whatever the pose and the waypoint, the angular error handed to
    the angular regulator lies in (-PI, PI]. *)
Theorem angular_error_range (self : Controller) :
  - PI < angular_error self <= PI.
Proof. unfold angular_error. apply arctan2_range. Qed.

(** X6: rotating the offset to the waypoint into the robot frame keeps
    its length: the distance used for the arrival test is the length of
    (forward, lateral), so the forward offset never exceeds the distance
    in magnitude, whatever the yaw. *)
Theorem frame_preserves_distance (self : Controller) :
  dist self = np.hypot (x_relative self) (y_relative self) /\
  Rabs (x_relative self) <= dist self /\
  0 <= dist self.
Proof.
  pose proof (sin2_cos2 (at2 (odom self))) as Hsc. unfold Rsqr in Hsc.
  assert (Heq : x_relative self * x_relative self
                + y_relative self * y_relative self
                = y_diff self * y_diff self + x_diff self * x_diff self).
  { unfold x_relative, y_relative, np.cos, np.sin. cbn zeta.
    set (c := cos (at2 (odom self))) in *.
    set (s := sin (at2 (odom self))) in *.
    replace ((c * x_diff self + s * y_diff self)
             * (c * x_diff self + s * y_diff self)
             + (- s * x_diff self + c * y_diff self)
               * (- s * x_diff self + c * y_diff self))
      with ((s * s + c * c)
            * (y_diff self * y_diff self + x_diff self * x_diff self))
      by ring.
    rewrite Hsc. ring. }
  assert (Hd : dist self = np.hypot (x_relative self) (y_relative self)).
  { unfold dist, np.hypot. rewrite Heq. reflexivity. }
  split; [exact Hd|].
  split; [|unfold dist, np.hypot; apply sqrt_pos].
  rewrite Hd. unfold np.hypot.
  rewrite <- (sqrt_Rsqr_abs (x_relative self)).
  apply sqrt_le_1_alt. unfold Rsqr.
  pose proof (Rle_0_sqr (y_relative self)) as Hy. unfold Rsqr in Hy. lra.
Qed.

(** * Further properties of the waypoint queue *)

Lemma advance_spec (k : nat) :
  forall (self : Controller) (n : nat) (q : list StateMsg),
    i self = Some n ->
    states self = Some q ->
    (k <= length q)%nat ->
    let r := advance k self in
    snd r = None /\
    i (fst r) = Some (n + k)%nat /\
    states (fst r) = Some (skipn k q) /\
    forall (m : nat) (d : StateMsg),
      k = S m ->
      waypoint (fst r) = waypoint_of (nth m q d) /\
      need_waypoint (fst r) = false.
Proof.
  induction k as [|k IH]; intros self n q Hi Hq Hk.
  - cbn. rewrite Hi, Hq, PeanoNat.Nat.add_0_r.
    repeat split; try reflexivity; intros; discriminate.
  - destruct q as [|w q]; [inversion Hk|].
    cbn [advance]. unfold get_new_waypoint. rewrite Hi. cbn. rewrite Hq.
    cbn [length] in Hk. apply le_S_n in Hk.
    set (self1 := set_need_waypoint false
                    (set_waypoint (waypoint_of w)
                       (set_states (Some q) (set_i (Some (n + 1)%nat) self)))).
    destruct (IH self1 (n + 1)%nat q eq_refl eq_refl Hk)
      as (Hr & Hi' & Hq' & Hw).
    split; [exact Hr|].
    split; [rewrite Hi'; f_equal; rewrite <- PeanoNat.Nat.add_assoc; reflexivity|].
    split; [exact Hq'|].
    intros m d Hm. injection Hm as Hm. subst k.
    destruct m as [|m].
    + cbn. split; reflexivity.
    + cbn [nth]. apply (Hw m d eq_refl).
Qed.

(** X7: after a waypoint list has been received, the waypoints are
    tracked in list order, none skipped: the list's first entry is the
    waypoint at once, and after [k] advances, for [k] below the length of
    the list, the waypoint is entry [k], the counter is [k], the queue
    holds the entries after it, and no advance has raised.  One advance
    more than the list has entries left raises IndexError. *)
Theorem waypoints_consumed_in_order
    (self : Controller) (msg : list StateMsg) (k : nat) (d : StateMsg) :
  (k < length msg)%nat ->
  let tracking := self_after (states_callback self msg) in
  let r := advance k tracking in
  raised (states_callback self msg) = None /\
  snd r = None /\
  waypoint (fst r) = waypoint_of (nth k msg d) /\
  i (fst r) = Some k /\
  states (fst r) = Some (skipn (S k) msg) /\
  need_waypoint (fst r) = false /\
  snd (advance (length msg) tracking) = Some IndexError.
Proof.
  intros Hk tracking r.
  destruct msg as [|w rest]; [inversion Hk|].
  cbn [length] in Hk. apply PeanoNat.lt_S_n in Hk || apply le_S_n in Hk.
  assert (Hi : i tracking = Some 0%nat) by reflexivity.
  assert (Hq : states tracking = Some rest) by reflexivity.
  split; [reflexivity|].
  assert (Hklen : (k <= length rest)%nat) by (clear - Hk; auto with arith).
  destruct (advance_spec k tracking 0 rest Hi Hq Hklen) as (Hr & Hi' & Hq' & Hw).
  fold r in Hr, Hi', Hq', Hw.
  split; [exact Hr|].
  assert (Hlast : snd (advance (length (w :: rest)) tracking) = Some IndexError).
  { clear - Hi Hq.
    assert (G : forall (q : list StateMsg) (s : Controller) (n : nat),
               i s = Some n -> states s = Some q ->
               snd (advance (S (length q)) s) = Some IndexError).
    { induction q as [|w' q IHq]; intros s n Hsi Hsq.
      - cbn [length advance]. unfold get_new_waypoint.
        rewrite Hsi. cbn. rewrite Hsq. reflexivity.
      - cbn [length]. change (advance (S (S (length q))) s)
          with (match get_new_waypoint s with
                | (s', None) => advance (S (length q)) s'
                | (s', Some e) => (s', Some e)
                end).
        unfold get_new_waypoint. rewrite Hsi. cbn. rewrite Hsq.
        apply (IHq _ (n + 1)%nat); reflexivity. }
    cbn [length]. apply (G rest tracking 0%nat Hi Hq). }
  destruct k as [|m].
  - cbn in r. subst r. cbn [fst].
    repeat split; try reflexivity. exact Hlast.
  - destruct (Hw m d eq_refl) as (Hwp & Hneed).
    split; [exact Hwp|].
    split; [exact Hi'|].
    split; [exact Hq'|].
    split; [exact Hneed|].
    exact Hlast.
Qed.

Lemma waypoints_consumed_in_order_witness :
  let self := init (mkVec5 0 0 0 0 0) 0 0 constructor_config in
  let msg := [mkStateMsg 1 0 0 0 0; mkStateMsg 2 1 0 0 0; mkStateMsg 3 3 0 0 0] in
  (1 < length msg)%nat /\
  waypoint (fst (advance 1 (self_after (states_callback self msg))))
    = mkVec5 2 1 0 0 0.
Proof.
  assert (H : (1 < 3)%nat) by (repeat constructor).
  split.
  - exact H.
  - destruct (waypoints_consumed_in_order
                (init (mkVec5 0 0 0 0 0) 0 0 constructor_config)
                [mkStateMsg 1 0 0 0 0; mkStateMsg 2 1 0 0 0; mkStateMsg 3 3 0 0 0]
                1 (mkStateMsg 0 0 0 0 0) H) as (_ & _ & Hw & _).
    exact Hw.
Defined.

(** * Further properties of the control cycle *)

Lemma control_far (self : Controller) (ta tl : R) :
  ~ dist self < robot_radius self ->
  control self ta tl
    = mkOutcome (commanded self ta tl) [twist (commanded self ta tl)] None.
Proof.
  intros Hfar. rewrite control_unfold. cbn zeta.
  destruct (Rlt_dec (dist self) (robot_radius self)); [contradiction|].
  reflexivity.
Qed.

Lemma tracking_from_origin_far :
  ~ dist (tracking_from_origin 1 0) < robot_radius (tracking_from_origin 1 0).
Proof.
  destruct (frame_on_heading (tracking_from_origin 1 0) 1) as (_ & _ & Hd).
  - cbn. rewrite cos_0. ring.
  - cbn. rewrite sin_0. ring.
  - rewrite Hd, Rabs_pos_eq by lra. cbn. lra.
Qed.

Lemma hypot_tenth : np.hypot (0 - 0) (1 / 10 - 0) < 2 / 10.
Proof.
  unfold np.hypot.
  replace ((0 - 0) * (0 - 0) + (1 / 10 - 0) * (1 / 10 - 0))
    with ((1 / 10) * (1 / 10)) by lra.
  rewrite sqrt_square; lra.
Qed.

(** X8: when a cycle finds the robot within [robot_radius] of the
    waypoint and the queue is not empty, nothing is raised, the one
    command published is the one computed against the waypoint just
    reached, and the object leaves the cycle tracking the head of the
    queue, with the queue shortened by it and the counter advanced. *)
Theorem control_arrival_advances
    (self : Controller) (ta tl : R) (n : nat)
    (next : StateMsg) (rest : list StateMsg) :
  i self = Some n ->
  states self = Some (next :: rest) ->
  dist self < robot_radius self ->
  let o := control self ta tl in
  raised o = None /\
  published o = [twist (commanded self ta tl)] /\
  waypoint (self_after o) = waypoint_of next /\
  states (self_after o) = Some rest /\
  i (self_after o) = Some (n + 1)%nat /\
  need_waypoint (self_after o) = false.
Proof.
  intros Hi Hq Hnear o. subst o.
  rewrite control_unfold. cbn zeta.
  destruct (Rlt_dec (dist self) (robot_radius self)); [|contradiction].
  unfold get_new_waypoint. cbn. rewrite Hi. cbn. rewrite Hq. cbn.
  repeat split.
Qed.

Lemma control_arrival_advances_witness :
  let self :=
    set_odom (mkVec5 0 0 0 0 0)
      (self_after
         (states_callback (init (mkVec5 0 0 0 0 0) 0 0 constructor_config)
            [mkStateMsg (1 / 10) 0 0 0 0; mkStateMsg 5 5 0 0 0])) in
  (i self = Some 0%nat /\
   states self = Some [mkStateMsg 5 5 0 0 0] /\
   dist self < robot_radius self) /\
  waypoint (self_after (control self 1 1)) = mkVec5 5 5 0 0 0.
Proof.
  cbn zeta.
  match goal with
  | |- (_ /\ _ /\ dist ?s < _) /\ _ =>
      assert (Hd : dist s < robot_radius s) by exact hypot_tenth;
      split; [repeat split; exact Hd|];
      destruct (control_arrival_advances s 1 1 0%nat (mkStateMsg 5 5 0 0 0) []
                  eq_refl eq_refl Hd) as (_ & _ & Hw & _);
      exact Hw
  end.
Defined.

(** X9: a cycle that finds the robot not within [robot_radius] of the
    waypoint raises nothing, publishes exactly one command, and leaves
    the waypoint, the queue, the counter, the flag, the stored pose and
    the tolerances as they were. *)
Theorem control_not_arrived (self : Controller) (ta tl : R) :
  ~ dist self < robot_radius self ->
  let o := control self ta tl in
  raised o = None /\
  published o = [twist (self_after o)] /\
  waypoint (self_after o) = waypoint self /\
  states (self_after o) = states self /\
  i (self_after o) = i self /\
  need_waypoint (self_after o) = need_waypoint self /\
  odom (self_after o) = odom self /\
  angular_tolerance (self_after o) = angular_tolerance self /\
  rotate_lin_vel (self_after o) = rotate_lin_vel self /\
  robot_radius (self_after o) = robot_radius self.
Proof.
  intros Hfar o. subst o. rewrite (control_far self ta tl Hfar).
  cbn. repeat split.
Qed.

Lemma control_not_arrived_witness :
  let self := tracking_from_origin 1 0 in
  ~ dist self < robot_radius self /\
  published (control self 1 1) = [twist (self_after (control self 1 1))].
Proof.
  split.
  - exact tracking_from_origin_far.
  - apply (control_not_arrived (tracking_from_origin 1 0) 1 1
             tracking_from_origin_far).
Defined.

(** X10: [control] reads neither [self.twist] nor the two stored
    previous velocities, so a [stop] has no lasting effect: [stop]
    publishes the zero command, and a control cycle run right after it
    publishes and leaves behind exactly what it would have without it. *)
Theorem stop_does_not_affect_control
    (self : Controller) (v : Twist) (a b ta tl : R) :
  published (stop self) = [mkTwist 0 0] /\
  raised (stop self) = None /\
  control (self_after (stop self)) ta tl = control self ta tl /\
  control (set_prev_vel a b (set_twist v self)) ta tl = control self ta tl.
Proof.
  split; [reflexivity|]. split; [reflexivity|].
  split; rewrite !control_unfold; reflexivity.
Qed.

(** X11: reconfiguring leaves the run-time state alone and the last
    configuration wins: after [param_callback] both regulators keep their
    integral, previous output, previous error and previous time, the
    controller keeps its flag, waypoint, queue, counter and stored pose,
    and applying one configuration after another gives the same object as
    applying the second alone. *)
Theorem param_callback_keeps_runtime_state
    (self : Controller) (c1 c2 : ParamsConfig) :
  let self' := fst (param_callback self c1) in
  (integral (pid_angular self') = integral (pid_angular self) /\
   previous_output (pid_angular self') = previous_output (pid_angular self) /\
   previous_error (pid_angular self') = previous_error (pid_angular self) /\
   previous_time (pid_angular self') = previous_time (pid_angular self)) /\
  (integral (pid_linear self') = integral (pid_linear self) /\
   previous_output (pid_linear self') = previous_output (pid_linear self) /\
   previous_error (pid_linear self') = previous_error (pid_linear self) /\
   previous_time (pid_linear self') = previous_time (pid_linear self)) /\
  (need_waypoint self' = need_waypoint self /\
   waypoint self' = waypoint self /\
   states self' = states self /\
   i self' = i self /\
   odom self' = odom self /\
   twist self' = twist self) /\
  fst (param_callback self' c2) = fst (param_callback self c2).
Proof. cbn. repeat split. Qed.

(** * Invariants of the running node *)









(** * Further properties of the pose-update cycle *)

Lemma control_published (self : Controller) (ta tl : R) (c : Twist) :
  In c (published (control self ta tl)) ->
  c = twist (commanded self ta tl).
Proof.
  rewrite control_unfold. cbn zeta.
  destruct (Rlt_dec (dist self) (robot_radius self)).
  - pose proof (get_new_waypoint_keeps
                  (set_need_waypoint true (commanded self ta tl))) as (Ht & _).
    destruct (get_new_waypoint (set_need_waypoint true (commanded self ta tl)))
      as [self'' [e|]]; cbn in *.
    + intros [].
    + intros [Hc|[]]. rewrite <- Hc. exact Ht.
  - cbn. intros [Hc|[]]. symmetry. exact Hc.
Qed.

Lemma odom_callback_published
    (euler_from_quaternion : Quaternion -> R * R * R)
    (self : Controller) (msg : Odometry) (ta tl : R) (c : Twist) :
  In c (published (odom_callback euler_from_quaternion self msg ta tl)) ->
  angular_z c
    = snd (update (pid_angular self) ta
             (angular_error
                (set_odom (mkVec5 (position_x msg) (position_y msg)
                             (snd (euler_from_quaternion (orientation msg)))
                             (twist_linear_x msg) (twist_angular_z msg))
                          self))).
Proof.
  unfold odom_callback. cbn [need_waypoint set_odom].
  destruct (need_waypoint self); [intros []|].
  intros Hc. apply control_published in Hc. rewrite Hc. reflexivity.
Qed.

Lemma odom_callback_pid_angular
    (euler_from_quaternion : Quaternion -> R * R * R)
    (self : Controller) (msg : Odometry) (ta tl : R) (c : Twist) :
  In c (published (odom_callback euler_from_quaternion self msg ta tl)) ->
  previous_output
    (pid_angular
       (self_after (odom_callback euler_from_quaternion self msg ta tl)))
    = angular_z c /\
  delta
    (pid_angular
       (self_after (odom_callback euler_from_quaternion self msg ta tl)))
    = delta (pid_angular self).
Proof.
  intros Hc.
  pose proof (odom_callback_published _ _ _ _ _ _ Hc) as Hz.
  revert Hc. unfold odom_callback. cbn [need_waypoint set_odom].
  destruct (need_waypoint self); [intros []|]. intros _.
  match goal with
  | |- context [control ?s ta tl] =>
      destruct (control_keeps s ta tl) as (_ & Ha & _)
  end.
  rewrite Ha, Hz. split; reflexivity.
Qed.

(** X14: unlike the linear command, the published angular command is
    slew-limited.  When two pose updates in a row each publish a command
    and [delta] of the angular regulator is not negative, the two angular
    components differ by at most that [delta]. *)
Theorem published_angular_slew_limited
    (euler_from_quaternion : Quaternion -> R * R * R)
    (self : Controller) (m1 m2 : Odometry) (ta tl ta' tl' : R)
    (c1 c2 : Twist) :
  0 <= delta (pid_angular self) ->
  let o1 := odom_callback euler_from_quaternion self m1 ta tl in
  let o2 := odom_callback euler_from_quaternion (self_after o1) m2 ta' tl' in
  In c1 (published o1) ->
  In c2 (published o2) ->
  Rabs (angular_z c2 - angular_z c1) <= delta (pid_angular self).
Proof.
  intros Hd o1 o2 H1 H2.
  destruct (odom_callback_pid_angular _ _ _ _ _ _ H1) as (Hprev & Hdelta).
  fold o1 in Hprev, Hdelta.
  rewrite (odom_callback_published _ _ _ _ _ _ H2).
  rewrite <- Hprev, <- Hdelta.
  apply update_step_bound. rewrite Hdelta. exact Hd.
Qed.

Lemma published_angular_slew_limited_witness :
  let euler := fun _ : Quaternion => (0, 0, 0) in
  let self := tracking_from_origin 1 0 in
  let msg := mkOdometry 0 0 (mkQuaternion 0 0 0 1) 0 0 in
  let o1 := odom_callback euler self msg 1 1 in
  let o2 := odom_callback euler (self_after o1) msg 2 2 in
  exists c1 c2 : Twist,
    (0 <= delta (pid_angular self) /\
     In c1 (published o1) /\ In c2 (published o2)) /\
    Rabs (angular_z c2 - angular_z c1) <= delta (pid_angular self).
Proof.
  cbn zeta.
  set (euler := fun _ : Quaternion => (0, 0, 0)).
  set (msg := mkOdometry 0 0 (mkQuaternion 0 0 0 1) 0 0).
  set (s1 := tracking_from_origin 1 0).
  assert (E1 : odom_callback euler s1 msg 1 1
               = mkOutcome (commanded s1 1 1) [twist (commanded s1 1 1)] None).
  { exact (odom_callback_tracking_far euler s1 msg 1 1 eq_refl
             tracking_from_origin_far). }
  set (s2 := commanded s1 1 1) in *.
  set (s2' := set_odom (mkVec5 0 0 0 0 0) s2).
  assert (E2 : odom_callback euler s2 msg 2 2
               = mkOutcome (commanded s2' 2 2) [twist (commanded s2' 2 2)] None).
  { exact (odom_callback_tracking_far euler s2 msg 2 2 eq_refl
             tracking_from_origin_far). }
  assert (Hd : 0 <= delta (pid_angular s1)) by (cbn; lra).
  assert (H1 : In (twist s2) (published (odom_callback euler s1 msg 1 1))).
  { rewrite E1. left. reflexivity. }
  assert (H2 : In (twist (commanded s2' 2 2))
                  (published
                     (odom_callback euler
                        (self_after (odom_callback euler s1 msg 1 1)) msg 2 2))).
  { rewrite E1. cbn [self_after]. rewrite E2. left. reflexivity. }
  exists (twist s2), (twist (commanded s2' 2 2)).
  split.
  - split; [exact Hd|]. split; [exact H1 | exact H2].
  - exact (published_angular_slew_limited euler s1 msg msg 1 1 2 2
             (twist s2) (twist (commanded s2' 2 2)) Hd H1 H2).
Defined.

Lemma odom_callback_exhausted
    (euler_from_quaternion : Quaternion -> R * R * R)
    (self : Controller) (msg : Odometry) (ta tl : R) (n : nat) :
  need_waypoint self = false ->
  i self = Some n ->
  states self = Some [] ->
  np.hypot (at1 (waypoint self) - position_y msg)
           (at0 (waypoint self) - position_x msg) < robot_radius self ->
  let o := odom_callback euler_from_quaternion self msg ta tl in
  raised o = Some IndexError /\
  published o = [] /\
  need_waypoint (self_after o) = true /\
  states (self_after o) = Some [] /\
  waypoint (self_after o) = waypoint self.
Proof.
  intros Hneed Hi Hstates Hdist o. subst o.
  unfold odom_callback. cbn [need_waypoint set_odom].
  rewrite Hneed, control_unfold. cbn zeta.
  match goal with
  | |- context [Rlt_dec (dist ?s) ?b] =>
      destruct (Rlt_dec (dist s) b) as [_|Hfar]
  end.
  - unfold get_new_waypoint. cbn. rewrite Hi. cbn. rewrite Hstates.
    cbn. repeat split; assumption.
  - exfalso. apply Hfar. exact Hdist.
Qed.

(** X15: an empty waypoint list is not ignored.  [states_callback]
    raises IndexError on it after it has already replaced the queue by
    the empty one: the flag and the waypoint are unchanged, so a tracking
    controller keeps tracking its waypoint, but whatever was queued is
    gone, and the cycle that reaches the waypoint raises IndexError and
    publishes nothing. *)
Theorem empty_waypoint_list_discards_queue
    (euler_from_quaternion : Quaternion -> R * R * R)
    (self : Controller) (msg : Odometry) (ta tl : R) :
  let o := states_callback self [] in
  raised o = Some IndexError /\
  published o = [] /\
  need_waypoint (self_after o) = need_waypoint self /\
  waypoint (self_after o) = waypoint self /\
  states (self_after o) = Some [] /\
  i (self_after o) = Some 0%nat /\
  (need_waypoint self = false ->
   np.hypot (at1 (waypoint self) - position_y msg)
            (at0 (waypoint self) - position_x msg) < robot_radius self ->
   let o' := odom_callback euler_from_quaternion (self_after o) msg ta tl in
   raised o' = Some IndexError /\ published o' = []).
Proof.
  cbn zeta.
  do 6 (split; [reflexivity|]).
  intros Hneed Hdist.
  destruct (odom_callback_exhausted euler_from_quaternion
              (self_after (states_callback self [])) msg ta tl 0%nat
              Hneed eq_refl eq_refl Hdist) as (Hr & Hp & _).
  split; assumption.
Qed.

Lemma empty_waypoint_list_discards_queue_witness :
  let self :=
    self_after
      (states_callback (init (mkVec5 0 0 0 0 0) 0 0 constructor_config)
         [mkStateMsg (1 / 10) 0 0 0 0; mkStateMsg 5 5 0 0 0]) in
  let msg := mkOdometry 0 0 (mkQuaternion 0 0 0 1) 0 0 in
  (need_waypoint self = false /\
   np.hypot (at1 (waypoint self) - position_y msg)
            (at0 (waypoint self) - position_x msg) < robot_radius self) /\
  raised (odom_callback (fun _ => (0, 0, 0))
            (self_after (states_callback self [])) msg 1 1)
    = Some IndexError.
Proof.
  cbn zeta. split.
  - split; [reflexivity | exact hypot_tenth].
  - match goal with
    | |- raised (odom_callback ?f (self_after (states_callback ?s [])) ?m _ _)
         = _ =>
        destruct (empty_waypoint_list_discards_queue f s m 1 1)
          as (_ & _ & _ & _ & _ & _ & H);
        exact (proj1 (H eq_refl hypot_tenth))
    end.
Defined.

(** X16: after the cycle that exhausts the queue has raised, the
    controller is idle, not broken: it keeps its waypoint, any further
    pose updates and reconfigurations publish nothing and raise nothing,
    and the next non-empty waypoint list puts it back to tracking that
    list's first entry. *)
Theorem idle_after_exhaustion_until_new_list
    (euler_from_quaternion : Quaternion -> R * R * R)
    (self : Controller) (msg : Odometry) (ta tl : R) (n : nat)
    (events : list event) (next : StateMsg) (rest : list StateMsg) :
  need_waypoint self = false ->
  i self = Some n ->
  states self = Some [] ->
  np.hypot (at1 (waypoint self) - position_y msg)
           (at0 (waypoint self) - position_x msg) < robot_radius self ->
  forallb pose_or_config events = true ->
  let exhausted :=
    self_after (odom_callback euler_from_quaternion self msg ta tl) in
  let o := run euler_from_quaternion exhausted events in
  let o' := states_callback (self_after o) (next :: rest) in
  waypoint exhausted = waypoint self /\
  published o = [] /\
  raised o = None /\
  need_waypoint (self_after o) = true /\
  raised o' = None /\
  need_waypoint (self_after o') = false /\
  waypoint (self_after o') = waypoint_of next /\
  states (self_after o') = Some rest.
Proof.
  intros Hneed Hi Hstates Hdist Hevents exhausted o o'.
  destruct (odom_callback_exhausted euler_from_quaternion self msg ta tl n
              Hneed Hi Hstates Hdist) as (_ & _ & Hflag & _ & Hwp).
  fold exhausted in Hflag, Hwp.
  destruct (run_awaiting euler_from_quaternion events exhausted Hflag Hevents)
    as (Hp & Hr & Hf).
  fold o in Hp, Hr, Hf.
  repeat split; assumption.
Qed.

Lemma idle_after_exhaustion_until_new_list_witness :
  let self :=
    self_after (states_callback (init (mkVec5 0 0 0 0 0) 0 0 constructor_config)
                                [mkStateMsg (1 / 10) 0 0 0 0]) in
  let msg := mkOdometry 0 0 (mkQuaternion 0 0 0 1) 0 0 in
  let events := [OdomMsg msg 2 2; Reconfigure constructor_config] in
  (need_waypoint self = false /\ i self = Some 0%nat /\ states self = Some [] /\
   np.hypot (at1 (waypoint self) - position_y msg)
            (at0 (waypoint self) - position_x msg) < robot_radius self /\
   forallb pose_or_config events = true) /\
  published
    (run (fun _ => (0, 0, 0))
         (self_after (odom_callback (fun _ => (0, 0, 0)) self msg 1 1))
         events) = [].
Proof.
  cbn zeta. split.
  - repeat split. exact hypot_tenth.
  - match goal with
    | |- published (run ?f (self_after (odom_callback _ ?s ?m _ _)) ?evs) = _ =>
        destruct (idle_after_exhaustion_until_new_list f s m 1 1 0%nat evs
                    (mkStateMsg 0 0 0 0 0) []
                    eq_refl eq_refl eq_refl hypot_tenth eq_refl)
          as (_ & Hp & _);
        exact Hp
    end.
Defined.

Lemma dispatch_published_length
    (euler_from_quaternion : Quaternion -> R * R * R)
    (self : Controller) (e : event) :
  (length (published (dispatch euler_from_quaternion self e)) <= 1)%nat.
Proof.
  destruct e as [msg ta tl | msg | config | ]; cbn [dispatch].
  - unfold odom_callback. cbn [need_waypoint set_odom].
    destruct (need_waypoint self); [cbn; auto|].
    rewrite control_unfold. cbn zeta.
    match goal with
    | |- context [Rlt_dec ?a ?b] => destruct (Rlt_dec a b)
    end; [|cbn; auto].
    match goal with
    | |- context [get_new_waypoint ?s] =>
        destruct (get_new_waypoint s) as [s' [x|]]
    end; cbn; auto.
  - destruct msg; cbn; auto.
  - cbn. auto.
  - cbn. auto.
Qed.

(** X17: each event makes the node publish at most one command, so a
    run publishes no more commands than it handles events; waypoint
    lists and reconfigurations publish none. *)
Theorem at_most_one_command_per_event
    (euler_from_quaternion : Quaternion -> R * R * R)
    (events : list event) :
  forall self : Controller,
    (length (published (run euler_from_quaternion self events))
     <= length events)%nat /\
    (forall msg, published (states_callback self msg) = []) /\
    (forall config,
        published (dispatch euler_from_quaternion self (Reconfigure config))
          = []).
Proof.
  intros self.
  split; [|split; [intros [|w rest]; reflexivity | reflexivity]].
  revert self.
  induction events as [|e events IH]; intros self.
  - cbn. auto.
  - cbn [run length].
    pose proof (dispatch_published_length euler_from_quaternion self e) as H1.
    destruct (raised (dispatch euler_from_quaternion self e)).
    + apply (PeanoNat.Nat.le_trans _ 1); [exact H1 | auto with arith].
    + cbn [published]. rewrite length_app.
      pose proof (IH (self_after (dispatch euler_from_quaternion self e))) as H2.
      apply (PeanoNat.Nat.le_trans _ (1 + length events)).
      * apply PeanoNat.Nat.add_le_mono; assumption.
      * apply PeanoNat.Nat.le_refl.
Qed.

Lemma get_new_waypoint_odom (self : Controller) :
  odom (fst (get_new_waypoint self)) = odom self.
Proof.
  unfold get_new_waypoint.
  destruct (i self) as [n|]; cbn; [|reflexivity].
  destruct (states self) as [[|state rest]|]; reflexivity.
Qed.

(** X18: every pose update stores the pose it carries, in whatever state
    the controller is and also when the cycle raises: afterwards
    [self.odom] holds the message's position, the yaw taken from its
    quaternion, and its two velocities. *)
Theorem odom_callback_records_pose
    (euler_from_quaternion : Quaternion -> R * R * R)
    (self : Controller) (msg : Odometry) (ta tl : R) :
  odom (self_after (odom_callback euler_from_quaternion self msg ta tl))
    = mkVec5 (position_x msg) (position_y msg)
             (snd (euler_from_quaternion (orientation msg)))
             (twist_linear_x msg) (twist_angular_z msg).
Proof.
  unfold odom_callback. cbn [need_waypoint set_odom].
  destruct (need_waypoint self); [reflexivity|].
  rewrite control_unfold. cbn zeta.
  match goal with
  | |- context [Rlt_dec ?a ?b] => destruct (Rlt_dec a b)
  end; [|reflexivity].
  match goal with
  | |- context [get_new_waypoint ?s] =>
      pose proof (get_new_waypoint_odom s) as Ho;
      destruct (get_new_waypoint s) as [s' [x|]]
  end; cbn in *; exact Ho.
Qed.

(** X19: a non-empty waypoint list replaces whatever was being tracked:
    the object after it is the same whether or not another list, empty or
    not, was received just before, and neither regulator is reset by it,
    so their slew limits carry across the switch of target. *)
Theorem new_waypoint_list_replaces_old
    (self : Controller) (old : list StateMsg)
    (first : StateMsg) (rest : list StateMsg) :
  let o := states_callback self (first :: rest) in
  self_after (states_callback (self_after (states_callback self old))
                              (first :: rest))
    = self_after o /\
  raised o = None /\
  published o = [] /\
  pid_angular (self_after o) = pid_angular self /\
  pid_linear (self_after o) = pid_linear self /\
  twist (self_after o) = twist self.
Proof.
  cbn zeta. split; [|repeat split].
  destruct old as [|w q]; reflexivity.
Qed.
